(** * Robot voice assistant: capture / VAD core and interruption state

    A shallow embedding of

    - [AudioRecorder.record_until_silence] and [AudioRecorder._ensure_stream]
      (src/audio_recorder.py), and
    - [SystemState], [interruption_thread] and the gate protocol of
      [main_thread] (src/main.py), with the parts of [AudioPlayer]
      (src/audio_player.py) that the interrupt sequence calls,
    - [AudioRecorder.record_fixed] and [AudioRecorder.close]
      (src/audio_recorder.py),
    - the bounded queues behind [safe_put] (src/main.py) and
      [AudioPlayer._safe_put], and the queue, the debouncing and the
      worker loop of [AudioPlayer] (src/audio_player.py), and
    - [initialize_settings] and the threads [main] starts (src/main.py).

    Conventions of the embedding.

    - Python [int] is [Z]; Python [float] is [Q] with exact arithmetic
      in [record_until_silence] (rounding of IEEE doubles is not
      modelled there; section [FloatRounding] shows that the threshold
      ordering survives any monotone rounding). The frame count of
      [record_fixed] is computed in binary64 with the kernel's
      primitive floats, as the code computes it.
    - Python [str] is the string of the bytes of its UTF-8 encoding.
    - [time.time()] reads a clock kept in the world; the clock only moves
      while the device delivers a chunk ([stream.read] blocks for the
      duration attached to that chunk).
    - An exception is the [Raise] outcome; a loop that has not finished
      when the fuel of the model is used up is the [Diverge] outcome. *)

From Stdlib Require Import ZArith QArith Qround Qminmax List Bool Lia Lqa.
From Stdlib.Strings Require Import Byte Ascii.
From Stdlib.Strings Require String.
From Stdlib.Floats Require PrimFloat SpecFloat FloatOps.
Import ListNotations.

Open Scope Q_scope.

(** ** Python built-ins used by the code *)

Module Py.

(** [a < b] on floats, as a boolean. *)
Definition Qltb (a b : Q) : bool := negb (Qle_bool b a).

(** [max(a, b)] with two arguments: the first one is kept unless the
    second is strictly greater. *)
Definition max2 (a b : Q) : Q := if Qltb a b then b else a.

(** [int(x)] on a float: truncation towards zero. *)
Definition int_of_float (x : Q) : Z :=
  if Qltb x 0 then Qceiling x else Qfloor x.

(** [sum(xs)] on a list of ints. *)
Definition sum (xs : list Z) : Z := fold_left Z.add xs 0%Z.

(** [bool(x)] for [x : Optional[float]]: [None] and [0.0] are falsy. *)
Definition truthy_time (t : option Q) : bool :=
  match t with
  | None => false
  | Some x => negb (Qeq_bool x 0)
  end.

(** [collections.deque(maxlen=n).append(x)]: the new item goes to the
    right end and, when the bound is exceeded, the leftmost is dropped. *)
Definition deque_append {A : Type} (maxlen : nat) (dq : list A) (x : A)
  : list A :=
  let dq' := dq ++ [x] in
  if (maxlen <? length dq')%nat then tl dq' else dq'.

(** [b"".join(frames) if frames else b""] *)
Definition join {A : Type} (frames : list (list A)) : list A :=
  match frames with
  | [] => []
  | _ :: _ => concat frames
  end.

End Py.

(** ** Effects: state, exceptions, loops *)

Module Eff.

Inductive Exn : Type :=
| RuntimeError        (* raised by the recorder itself *)
| ValueError          (* PyAudio: unsupported sample width *)
| ZeroDivisionError   (* [//] by zero *)
| DeviceError         (* whatever [stream.read] raises *)
| UnboundLocalError   (* a local name used before it is bound *)
| OtherError.         (* any other [Exception] of a collaborator *)

Inductive Outcome (A : Type) : Type :=
| Ok (a : A)
| Raise (e : Exn)
| Diverge.

Arguments Ok {A} a.
Arguments Raise {A} e.
Arguments Diverge {A}.

Definition M (St A : Type) : Type := St -> Outcome A * St.

Definition ret {St A} (a : A) : M St A := fun s => (Ok a, s).

Definition bind {St A B} (m : M St A) (k : A -> M St B) : M St B :=
  fun s =>
    match m s with
    | (Ok a, s') => k a s'
    | (Raise e, s') => (Raise e, s')
    | (Diverge, s') => (Diverge, s')
    end.

Definition raise {St A} (e : Exn) : M St A := fun s => (Raise e, s).

Definition get {St} : M St St := fun s => (Ok s, s).

Definition modify {St} (f : St -> St) : M St unit := fun s => (Ok tt, f s).

(** [try: m  except Exception: pass] *)
Definition try_pass {St A} (m : M St A) : M St unit :=
  fun s =>
    match m s with
    | (Ok _, s') => (Ok tt, s')
    | (Raise _, s') => (Ok tt, s')
    | (Diverge, s') => (Diverge, s')
    end.

(** A [while] loop whose body either goes round again with a new loop
    state ([inl]) or leaves the loop with a result ([inr]). *)
Fixpoint loop {St S R} (body : S -> M St (S + R)) (fuel : nat) (s : S)
  : M St R :=
  match fuel with
  | O => fun w => (Diverge, w)
  | Datatypes.S n =>
      bind (body s) (fun x =>
        match x with
        | inl s' => loop body n s'
        | inr r => ret r
        end)
  end.

(** [for _ in range(n): body], where the body may [break] ([inr]). *)
Fixpoint for_range {St S} (body : S -> M St (S + S)) (n : nat) (s : S)
  : M St S :=
  match n with
  | O => ret s
  | Datatypes.S n' =>
      bind (body s) (fun x =>
        match x with
        | inl s' => for_range body n' s'
        | inr s' => ret s'
        end)
  end.

(** [try: m  except Exception: h] *)
Definition try_except {St A} (m : M St A) (h : M St A) : M St A :=
  fun s =>
    match m s with
    | (Raise _, s') => h s'
    | r => r
    end.

(** Run a computation on a component of the state. *)
Definition zoom {St T A} (proj : St -> T) (inj : T -> St -> St)
    (m : M T A) : M St A :=
  fun s => let (o, t') := m (proj s) in (o, inj t' s).

Definition is_diverge {A} (o : Outcome A) : bool :=
  match o with Diverge => true | _ => false end.

Definition is_ok {A} (o : Outcome A) : bool :=
  match o with Ok _ => true | _ => false end.

End Eff.

Declare Scope eff_scope.
Notation "x <- m ;; k" := (Eff.bind m (fun x => k))
  (at level 61, m at next level, right associativity) : eff_scope.
Notation "m ;;; k" := (Eff.bind m (fun _ => k))
  (at level 61, right associativity) : eff_scope.
Open Scope eff_scope.

(** ** src/audio_recorder.py *)

Module Recorder.

Import Py Eff.

Definition bytes := list byte.

(** One blocking [stream.read(chunk)]: how long it blocks and what it
    delivers ([None]: the read raises). *)
Record MicRead : Type := { rd_time : Q; rd_data : option bytes }.

(** What the recorder cannot control: the PyAudio import flag, whether
    the input stream can be opened, the chunks the device delivers, and
    the energy meter [audioop.rms(data, width)]. *)
Record Env : Type := {
  env_has_pyaudio : bool;
  env_open : bool;
  env_mic : nat -> MicRead;
  env_rms : bytes -> Z -> Z
}.

(** The two control points of the detector that are observed. *)
Inductive Event : Type :=
| SpeechStart (t : Q)   (* line 232-233: speaking = True, start_time = t *)
| SpeechEnd (t : Q).    (* line 245 taken, with the clock reading of line 244 *)

(** Mutable state: the wall clock, the number of chunks read from the
    device so far, [self._pa is not None], [self._stream is not None],
    and the observation log (ghost, never read by the program). *)
Record World : Type := {
  w_clock : Q;
  w_pos : nat;
  w_pa : bool;
  w_stream : bool;
  w_log : list Event
}.

(** [self.rate], [self.width], [self.channels], [self.chunk] *)
Record AudioRecorder : Type := {
  rate : Z; width : Z; channels : Z; chunk : Z
}.

(** The keyword arguments of [record_until_silence]. *)
Record Params : Type := {
  max_duration : Q;
  noise_calib_duration : Q;
  start_frames : Z;
  end_frames : Z;
  post_silence_hold : Q;
  pre_roll_ms : Z;
  min_speech_after_start : Q;
  threshold_boost : Q
}.

(** The defaults of the signature (line 150-157). *)
Definition default_params : Params := {|
  max_duration := 25;
  noise_calib_duration := 8 # 10;
  start_frames := 3;
  end_frames := 15;
  post_silence_hold := 35 # 100;
  pre_roll_ms := 300;
  min_speech_after_start := 18 # 10;
  threshold_boost := 2
|}.

(** *** Primitive effects *)

(** [time.time()] *)
Definition time_time : M World Q := fun w => (Ok (w_clock w), w).

(** [self._stream.read(self.chunk, exception_on_overflow=False)] *)
Definition advance (env : Env) (w : World) : World :=
  {| w_clock := Qred (w_clock w + rd_time (env_mic env (w_pos w)));
     w_pos := S (w_pos w);
     w_pa := w_pa w;
     w_stream := w_stream w;
     w_log := w_log w |}.

Definition stream_read (env : Env) : M World bytes :=
  fun w =>
    match rd_data (env_mic env (w_pos w)) with
    | Some d => (Ok d, advance env w)
    | None => (Raise DeviceError, advance env w)
    end.

Definition logged (e : Event) (w : World) : World :=
  {| w_clock := w_clock w; w_pos := w_pos w;
     w_pa := w_pa w; w_stream := w_stream w;
     w_log := w_log w ++ [e] |}.

Definition observe (e : Event) : M World unit := modify (logged e).

Definition set_stream (b : bool) : M World unit :=
  modify (fun w => {| w_clock := w_clock w; w_pos := w_pos w;
                      w_pa := w_pa w; w_stream := b;
                      w_log := w_log w |}).

(** [a // b] on ints *)
Definition floordiv (a b : Z) : M World Z :=
  if (b =? 0)%Z then raise ZeroDivisionError else ret (a / b)%Z.

(** *** [_ensure_stream] (lines 82-109) *)
Definition ensure_stream (env : Env) (self : AudioRecorder) : M World unit :=
  w <- get ;;
  if w_stream w then ret tt
  else if negb (w_pa w) then raise RuntimeError
  else if negb ((1 <=? width self)%Z && (width self <=? 4)%Z)
       then raise ValueError                 (* get_format_from_width *)
  else if negb (env_open env) then raise RuntimeError
  else set_stream true ;;;
       try_pass (stream_read env) ;;;        (* prime the stream *)
       ret tt.

(** *** Threshold derivation (lines 201-204) *)

(** [noise_floor = (sum(noise_vals) / max(1, len(noise_vals))) if noise_vals else 50] *)
Definition noise_floor (noise_vals : list Z) : Q :=
  match noise_vals with
  | [] => 50
  | _ :: _ =>
      inject_Z (sum noise_vals)
      / inject_Z (Z.max 1 (Z.of_nat (length noise_vals)))
  end.

(** [start_threshold = max(150, noise_floor * threshold_boost)] *)
Definition start_threshold (nf boost : Q) : Q := max2 150 (nf * boost).

(** [end_threshold = max(100, noise_floor * (threshold_boost * 0.55))] *)
Definition end_threshold (nf boost : Q) : Q :=
  max2 100 (nf * (boost * (55 # 100))).

(** The same derivation when every product is rounded by [rnd], as
    floating-point multiplication does, and 0.55 is the constant [k]. *)
Definition start_threshold_fl (rnd : Q -> Q) (nf boost : Q) : Q :=
  max2 150 (rnd (nf * boost)).

Definition end_threshold_fl (rnd : Q -> Q) (k nf boost : Q) : Q :=
  max2 100 (rnd (nf * rnd (boost * k))).

(** *** Pre-roll ring and calibration (lines 184-199) *)

Definition bytes_per_frame (self : AudioRecorder) : Z :=
  (width self * channels self)%Z.

Definition block_size (self : AudioRecorder) : Z :=
  (chunk self * bytes_per_frame self)%Z.

(** [int(self.rate * pre_roll_ms / 1000.0) * bytes_per_frame] *)
Definition pre_roll_bytes (self : AudioRecorder) (p : Params) : Z :=
  (int_of_float (inject_Z (rate self * pre_roll_ms p) / 1000)
   * bytes_per_frame self)%Z.

(** [max(1, pre_roll_bytes // (self.chunk * bytes_per_frame))] *)
Definition pre_roll_blocks (self : AudioRecorder) (p : Params) : M World Z :=
  q <- floordiv (pre_roll_bytes self p) (block_size self) ;;
  ret (Z.max 1 q).

(** The capacity of the ring when [pre_roll_blocks] does not raise. *)
Definition pre_roll_capacity (self : AudioRecorder) (p : Params) : nat :=
  Z.to_nat (Z.max 1 (pre_roll_bytes self p / block_size self)).

(** Loop state of the calibration phase: [noise_vals] and [ring_pre]. *)
Definition Calib : Type := (list Z * list bytes)%type.

(** One test-and-body round of [while time.time() < calib_end]. *)
Definition calib_body (env : Env) (self : AudioRecorder) (maxlen : nat)
    (calib_end : Q) (s : Calib) : M World (Calib + Calib) :=
  now <- time_time ;;
  if Qltb now calib_end then
    data <- stream_read env ;;
    let rms := env_rms env data (width self) in
    ret (inl (fst s ++ [rms], deque_append maxlen (snd s) data))
  else ret (inr s).

Definition calibrate (env : Env) (self : AudioRecorder) (maxlen : nat)
    (calib_end : Q) (fuel : nat) : M World Calib :=
  loop (calib_body env self maxlen calib_end) fuel ([], []).

(** *** Main loop (lines 209-254) *)

Record Vad : Type := {
  frames : list bytes;
  speaking : bool;
  over_count : Z;
  under_count : Z;
  start_time : option Q
}.

(** [hold_blocks] (lines 247-248) *)
Definition hold_blocks (self : AudioRecorder) (p : Params) : M World Z :=
  let hold_bytes :=
    (int_of_float (inject_Z (rate self) * post_silence_hold p)
     * bytes_per_frame self)%Z in
  q <- floordiv hold_bytes (block_size self) ;;
  ret (Z.max 1 q).

(** One round of the post-silence hold (lines 250-253). *)
Definition hold_body (env : Env) (hard_deadline : Q) (fr : list bytes)
  : M World (list bytes + list bytes) :=
  now <- time_time ;;
  if Qle_bool hard_deadline now then ret (inr fr)
  else
    extra <- stream_read env ;;
    ret (inl (fr ++ [extra])).

(** The termination sequence (lines 246-254), ending in [break]. *)
Definition hold_phase (env : Env) (self : AudioRecorder) (p : Params)
    (hard_deadline : Q) (fr : list bytes) : M World (Vad + list bytes) :=
  hb <- hold_blocks self p ;;
  fr' <- for_range (hold_body env hard_deadline) (Z.to_nat hb) fr ;;
  ret (inr fr').

(** One round of [while True] (lines 221-254); [inr] is a [break]. *)
Definition main_body (env : Env) (self : AudioRecorder) (p : Params)
    (start_thr end_thr hard_deadline : Q) (s : Vad)
  : M World (Vad + list bytes) :=
  now <- time_time ;;
  if Qle_bool hard_deadline now then ret (inr (frames s))
  else
    data <- stream_read env ;;
    let rms := inject_Z (env_rms env data (width self)) in
    let fr := frames s ++ [data] in
    if negb (speaking s) then
      if Qle_bool start_thr rms then
        let oc := (over_count s + 1)%Z in
        if (start_frames p <=? oc)%Z then
          t <- time_time ;;
          observe (SpeechStart t) ;;;
          ret (inl {| frames := fr; speaking := true; over_count := oc;
                      under_count := 0; start_time := Some t |})
        else
          ret (inl {| frames := fr; speaking := false; over_count := oc;
                      under_count := under_count s;
                      start_time := start_time s |})
      else
        ret (inl {| frames := fr; speaking := false; over_count := 0;
                    under_count := under_count s;
                    start_time := start_time s |})
    else
      let uc := if Qltb rms end_thr then (under_count s + 1)%Z else 0%Z in
      now' <- time_time ;;
      let long_enough :=
        match start_time s with
        | Some st =>
            truthy_time (Some st)
            && Qle_bool (min_speech_after_start p) (now' - st)
        | None => false
        end in
      if long_enough && (end_frames p <=? uc)%Z then
        observe (SpeechEnd now') ;;;
        hold_phase env self p hard_deadline fr
      else
        ret (inl {| frames := fr; speaking := true;
                    over_count := over_count s; under_count := uc;
                    start_time := start_time s |}).

(** Lines 184-199: the ring is set up and filled while the noise is
    measured. The result is [(noise_vals, ring_pre)]. *)
Definition calibration_phase (env : Env) (self : AudioRecorder)
    (p : Params) (fuel : nat) : M World Calib :=
  blocks <- pre_roll_blocks self p ;;
  t0 <- time_time ;;
  let calib_end := t0 + max2 0 (noise_calib_duration p) in
  calibrate env self (Z.to_nat blocks) calib_end fuel.

(** Lines 201-254: thresholds, seeding of [frames] with the ring, and
    the main loop. The result is [frames], before the final join. *)
Definition detection_phase (env : Env) (self : AudioRecorder)
    (p : Params) (fuel : nat) (cal : Calib) : M World (list bytes) :=
  let nf := noise_floor (fst cal) in
  let start_thr := start_threshold nf (threshold_boost p) in
  let end_thr := end_threshold nf (threshold_boost p) in
  t1 <- time_time ;;
  let hard_deadline := t1 + max_duration p in
  loop (main_body env self p start_thr end_thr hard_deadline) fuel
       {| frames := snd cal; speaking := false; over_count := 0;
          under_count := 0; start_time := None |}.

(** Lines 184-254, after the stream has been set up. *)
Definition record_body (env : Env) (self : AudioRecorder) (p : Params)
    (fuel : nat) : M World (list bytes) :=
  cal <- calibration_phase env self p fuel ;;
  detection_phase env self p fuel cal.

(** [record_until_silence] (lines 148-256). *)
Definition record_until_silence (env : Env) (self : AudioRecorder)
    (p : Params) (fuel : nat) : M World bytes :=
  if negb (env_has_pyaudio env) then raise RuntimeError
  else
    ensure_stream env self ;;;
    fr <- record_body env self p fuel ;;
    ret (join fr).

(** The chunks the device hands out at positions [from .. from+n-1]
    (a failed read contributes nothing). *)
Definition delivered (env : Env) (from n : nat) : list bytes :=
  flat_map (fun i => match rd_data (env_mic env i) with
                     | Some d => [d]
                     | None => []
                     end) (seq from n).

(** Every read at a position in [from .. upto-1] delivers a chunk. *)
Definition all_ok (env : Env) (from upto : nat) : Prop :=
  forall i, (from <= i < upto)%nat -> rd_data (env_mic env i) <> None.

(** The last [n] elements of a list. *)
Definition lastn {A : Type} (n : nat) (l : list A) : list A :=
  skipn (length l - n) l.

(** What one call may add to the observation log: nothing, one start
    of speech, or one start followed by one end that comes at least
    [min_speech] later on the clock. *)
Definition log_shape (min_speech : Q) (evs : list Event) : Prop :=
  evs = []
  \/ (exists t, evs = [SpeechStart t])
  \/ (exists t t', evs = [SpeechStart t; SpeechEnd t']
                   /\ min_speech <= t' - t).

(** Number of rounds of length [d > 0] that cover a duration [x]. *)
Definition rounds_for (x d : Q) : nat := Z.to_nat (Qceiling (x / d)).

(** Fuel with which neither loop of a call is cut short by the model,
    when every chunk read takes at least [dmin > 0]. *)
Definition enough_fuel (p : Params) (dmin : Q) : nat :=
  S (Nat.max (rounds_for (max2 0 (noise_calib_duration p)) dmin)
             (rounds_for (max_duration p) dmin)).

(** *** Vocabulary of the statements about reads and frames *)

Definition reads_post (env : Env) (self : AudioRecorder) (p0 : nat)
    (fr0 : list bytes) (o : Outcome (list bytes)) (w' : World) : Prop :=
  (p0 <= w_pos w')%nat
  /\ match o with
     | Ok fr =>
         all_ok env p0 (w_pos w')
         /\ fr = fr0 ++ delivered env p0 (w_pos w' - p0)
     | Raise DeviceError => (p0 < w_pos w')%nat
     | Raise ZeroDivisionError =>
         all_ok env p0 (w_pos w') /\ block_size self = 0%Z
     | Raise _ => False
     | Diverge => all_ok env p0 (w_pos w') /\ (p0 < w_pos w')%nat
     end.

Definition reads_inv (env : Env) (p0 : nat) (fr0 : list bytes)
    (s : Vad) (w : World) : Prop :=
  (p0 <= w_pos w)%nat
  /\ all_ok env p0 (w_pos w)
  /\ frames s = fr0 ++ delivered env p0 (w_pos w - p0).

(** What calibration leaves behind, relative to the position [p0] of
    the device when it starts. *)
Definition calib_post (env : Env) (self : AudioRecorder) (p0 m : nat)
    (o : Outcome Calib) (w' : World) : Prop :=
  (p0 <= w_pos w')%nat
  /\ match o with
     | Ok cal =>
         all_ok env p0 (w_pos w')
         /\ snd cal = lastn m (delivered env p0 (w_pos w' - p0))
     | Raise DeviceError => (p0 < w_pos w')%nat
     | Raise ZeroDivisionError =>
         all_ok env p0 (w_pos w') /\ block_size self = 0%Z
     | Raise _ => False
     | Diverge => all_ok env p0 (w_pos w') /\ (p0 < w_pos w')%nat
     end.

Definition log_inv (L0 : list Event) (s : Vad) (w : World) : Prop :=
  (speaking s = false /\ w_log w = L0)
  \/ (speaking s = true
      /\ exists t, start_time s = Some t /\ w_log w = L0 ++ [SpeechStart t]).

Definition log_post (min_speech : Q) (L0 : list Event) (w' : World) : Prop :=
  exists evs, w_log w' = L0 ++ evs /\ log_shape min_speech evs.


(** The bytes a call returned ([b""] when it did not return). *)
Definition returned {A : Type} (r : Outcome (list A) * World) : list A :=
  match fst r with
  | Ok b => b
  | _ => []
  end.

End Recorder.

(** ** src/main.py and the player calls it makes (src/audio_player.py) *)

Module Assistant.

Import Py Eff Recorder.

Import String.StringSyntax.
Local Open Scope string_scope.

Definition string : Type := String.string.
Definition EmptyString : string := String.EmptyString.

(** [class SystemState] (lines 35-45), without the lock object. *)
Record SystemState : Type := {
  is_listening : bool;
  is_active : bool;
  is_speaking : bool;
  allow_listening_to_user : bool
}.

(** [AudioJob] and the fields of [AudioPlayer] that [stop_current] and
    [flush_queue] touch. *)
Record AudioJob : Type := { job_path : string; job_canceled : bool }.

Record AudioPlayer : Type := {
  current_job : option AudioJob;
  player_queue : list AudioJob
}.

(** What the threads do that can be observed from outside. The gate
    value carried by [PrimaryListen] and [AiDispatch] is the value of
    [allow_listening_to_user] at that program point. *)
Inductive Act : Type :=
| Sleep (secs : Q)
| Play (path : string)
| PrimaryListen (gate : bool)
| BargeInListen
| Transcribe
| AiDispatch (gate : bool)
| Spoke (text : string).

(** Module-level state of main.py, the recorder's world, the locals of
    [main_thread] that live across iterations, and the log of acts. *)
Record App : Type := {
  system_state : SystemState;
  allow_interruption : bool;
  allow_wake_word : bool;
  audio_queue : list bytes;
  audio_player : AudioPlayer;
  sd_playing : bool;
  mic : World;
  is_first_time : bool;
  traceback_bound : bool;
  acts : list Act
}.

Definition with_state (f : SystemState -> SystemState) (a : App) : App :=
  {| system_state := f (system_state a);
     allow_interruption := allow_interruption a;
     allow_wake_word := allow_wake_word a;
     audio_queue := audio_queue a; audio_player := audio_player a;
     sd_playing := sd_playing a; mic := mic a;
     is_first_time := is_first_time a;
     traceback_bound := traceback_bound a; acts := acts a |}.

Definition with_queue (q : list bytes) (a : App) : App :=
  {| system_state := system_state a;
     allow_interruption := allow_interruption a;
     allow_wake_word := allow_wake_word a;
     audio_queue := q; audio_player := audio_player a;
     sd_playing := sd_playing a; mic := mic a;
     is_first_time := is_first_time a;
     traceback_bound := traceback_bound a; acts := acts a |}.

Definition with_player (f : AudioPlayer -> AudioPlayer) (a : App) : App :=
  {| system_state := system_state a;
     allow_interruption := allow_interruption a;
     allow_wake_word := allow_wake_word a;
     audio_queue := audio_queue a; audio_player := f (audio_player a);
     sd_playing := sd_playing a; mic := mic a;
     is_first_time := is_first_time a;
     traceback_bound := traceback_bound a; acts := acts a |}.

Definition with_sd (b : bool) (a : App) : App :=
  {| system_state := system_state a;
     allow_interruption := allow_interruption a;
     allow_wake_word := allow_wake_word a;
     audio_queue := audio_queue a; audio_player := audio_player a;
     sd_playing := b; mic := mic a;
     is_first_time := is_first_time a;
     traceback_bound := traceback_bound a; acts := acts a |}.

Definition with_mic (w : World) (a : App) : App :=
  {| system_state := system_state a;
     allow_interruption := allow_interruption a;
     allow_wake_word := allow_wake_word a;
     audio_queue := audio_queue a; audio_player := audio_player a;
     sd_playing := sd_playing a; mic := w;
     is_first_time := is_first_time a;
     traceback_bound := traceback_bound a; acts := acts a |}.

Definition with_locals (first bound : bool) (a : App) : App :=
  {| system_state := system_state a;
     allow_interruption := allow_interruption a;
     allow_wake_word := allow_wake_word a;
     audio_queue := audio_queue a; audio_player := audio_player a;
     sd_playing := sd_playing a; mic := mic a;
     is_first_time := first;
     traceback_bound := bound; acts := acts a |}.

Definition act (x : Act) : M App unit :=
  modify (fun a =>
    {| system_state := system_state a;
       allow_interruption := allow_interruption a;
       allow_wake_word := allow_wake_word a;
       audio_queue := audio_queue a; audio_player := audio_player a;
       sd_playing := sd_playing a; mic := mic a;
       is_first_time := is_first_time a;
       traceback_bound := traceback_bound a; acts := acts a ++ [x] |}).

(** The state right after the module has been loaded (lines 40-44,
    126-142): [allow_interruption = False], [allow_wake_word = True]. *)
Definition module_init (w : World) : App := {|
  system_state := {| is_listening := true; is_active := true;
                     is_speaking := false;
                     allow_listening_to_user := false |};
  allow_interruption := false;
  allow_wake_word := true;
  audio_queue := [];
  audio_player := {| current_job := None; player_queue := [] |};
  sd_playing := false;
  mic := w;
  is_first_time := true;
  traceback_bound := false;
  acts := []
|}.

(** *** SystemState methods *)

(** [pause_listening], [resume_listening] (lines 47-55) *)
Definition pause_listening : M App unit :=
  modify (with_state (fun s =>
    {| is_listening := false; is_active := is_active s;
       is_speaking := is_speaking s;
       allow_listening_to_user := allow_listening_to_user s |})).

Definition resume_listening : M App unit :=
  modify (with_state (fun s =>
    {| is_listening := true; is_active := is_active s;
       is_speaking := is_speaking s;
       allow_listening_to_user := allow_listening_to_user s |})).

(** [pause_interruption] (lines 62-65) *)
Definition pause_interruption : M App unit :=
  modify (with_state (fun s =>
    {| is_listening := is_listening s; is_active := is_active s;
       is_speaking := is_speaking s;
       allow_listening_to_user := false |})).

(** [resume_interruption] (lines 67-72):
    [self.allow_listening_to_user = allow_interruption and True] *)
Definition resume_interruption : M App unit :=
  a <- get ;;
  modify (with_state (fun s =>
    {| is_listening := is_listening s; is_active := is_active s;
       is_speaking := is_speaking s;
       allow_listening_to_user := allow_interruption a && true |})).

(** *** AudioPlayer.flush_queue, AudioPlayer.stop_current *)

(** Taking items out one by one until [Empty] is raised. *)
Fixpoint drain {A : Type} (q : list A) : list A :=
  match q with
  | [] => []
  | _ :: rest => drain rest
  end.

Definition flush_queue : M App unit :=
  modify (with_player (fun p =>
    {| current_job := current_job p;
       player_queue := drain (player_queue p) |})).

Definition stop_current : M App unit :=
  modify (with_player (fun p =>
    {| current_job :=
         match current_job p with
         | Some j => Some {| job_path := job_path j; job_canceled := true |}
         | None => None
         end;
       player_queue := player_queue p |})) ;;;
  flush_queue.

(** [sd.stop()], which the caller cannot rule out to raise. *)
Definition sd_stop (raises : bool) : M App unit :=
  if raises then raise OtherError else modify (with_sd false).

(** [clear_all_queues] (lines 117-122, the definition in force) *)
Definition clear_all_queues : M App unit :=
  modify (fun a => with_queue (drain (audio_queue a)) a).

(** [interrupt] (lines 90-105) *)
Definition interrupt (sd_raises : bool) : M App unit :=
  try_pass (sd_stop sd_raises) ;;;
  try_pass (stop_current ;;; flush_queue) ;;;
  clear_all_queues ;;;
  modify (with_state (fun s =>
    {| is_listening := true; is_active := is_active s;
       is_speaking := false;
       allow_listening_to_user := allow_listening_to_user s |})).

(** *** interruption_thread (lines 351-399) *)

(** The keyword arguments of the short capture window (lines 362-371). *)
Definition barge_in_params : Params := {|
  max_duration := 13 # 10;
  noise_calib_duration := 0;
  start_frames := 2;
  end_frames := 8;
  post_silence_hold := 0;
  pre_roll_ms := 200;
  min_speech_after_start := 2 # 10;
  threshold_boost := 0
|}.

(** What the collaborators answer during one round of the listener. *)
Record BargeIn : Type := {
  bi_fuel : nat;
  bi_stt : option string;             (* [stt.transcribe]; [None]: raises *)
  bi_is_stop : string -> bool;        (* [is_stop_with_optional_wake] *)
  bi_sd_raises : bool
}.

Definition record (env : Env) (self : AudioRecorder) (p : Params)
    (fuel : nat) : M App bytes :=
  zoom mic with_mic (record_until_silence env self p fuel).

Definition nonempty_string (s : string) : bool :=
  match s with String.EmptyString => false | String.String _ _ => true end.

Definition nonempty_bytes (b : bytes) : bool :=
  match b with [] => false | _ :: _ => true end.

(** The body of [while system_state.is_active] (lines 359-399). *)
Definition interruption_body (env : Env) (self : AudioRecorder)
    (x : BargeIn) : M App unit :=
  a <- get ;;
  if allow_listening_to_user (system_state a) then
    try_except
      (act BargeInListen ;;;
       audio_buf <- record env self barge_in_params (bi_fuel x) ;;
       if negb (nonempty_bytes audio_buf) then act (Sleep (5 # 100))
       else
         act Transcribe ;;;
         match bi_stt x with
         | None => ret tt
         | Some partial =>
             if negb (nonempty_string partial) then ret tt
             else if bi_is_stop x partial then
               interrupt (bi_sd_raises x) ;;;
               act (Play "Resources/voice_msgs/listening.wav") ;;;
               resume_listening ;;;
               act (Sleep (3 # 10))
             else ret tt
         end)
      (act (Sleep (1 # 10)))
  else ret tt.

(** [interruption_thread]: one [BargeIn] answer per round. *)
Fixpoint interruption_thread (env : Env) (self : AudioRecorder)
    (rounds : list BargeIn) : M App unit :=
  match rounds with
  | [] => ret tt
  | x :: rest =>
      a <- get ;;
      if is_active (system_state a) then
        interruption_body env self x ;;;
        interruption_thread env self rest
      else ret tt
  end.

(** *** main_thread (lines 402-569) *)

(** The keyword arguments of the primary capture (lines 432-441). *)
Definition primary_params : Params := {|
  max_duration := 25;
  noise_calib_duration := 8 # 10;
  start_frames := 3;
  end_frames := 18;
  post_silence_hold := 35 # 100;
  pre_roll_ms := 350;
  min_speech_after_start := 18 # 10;
  threshold_boost := 3
|}.

(** What the collaborators answer during one turn of the conversation. *)
Record Turn : Type := {
  tn_fuel : nat;
  tn_wav : option bytes;        (* [pcm_to_wav]; [None]: raises *)
  tn_stt : option string;       (* [stt.transcribe]; [None]: raises *)
  tn_is_stop : bool;            (* [is_stop_command(user_input)] *)
  tn_sd_raises : bool;
  tn_wake : bool * string;      (* [extract_after_wake]: has_wake, remaining *)
  tn_local : option (bool * string * string);
                                (* [handle]: should_continue, local_response
                                   (empty for None), pass_text; [None]: raises *)
  tn_tts_ok : bool;
  tn_ai : option string         (* [n8n.chat]; [None]: raises *)
}.

Definition is_space (c : ascii) : bool :=
  let n := nat_of_ascii c in
  ((9 <=? n) && (n <=? 13) || (28 <=? n) && (n <=? 32))%nat.

(** The white space of [str.isspace] beyond ASCII, by the bytes of its
    UTF-8 encoding: U+0085 and U+00A0 take two bytes; U+1680,
    U+2000..U+200A, U+2028, U+2029, U+202F, U+205F and U+3000 three. *)
Definition is_space2 (a b : ascii) : bool :=
  let y := nat_of_ascii b in
  ((nat_of_ascii a =? 194) && ((y =? 133) || (y =? 160)))%nat.

Definition is_space3 (a b c : ascii) : bool :=
  let x := nat_of_ascii a in
  let y := nat_of_ascii b in
  let z := nat_of_ascii c in
  ((x =? 225) && (y =? 154) && (z =? 128)
   || (x =? 226) && (y =? 128)
      && ((128 <=? z) && (z <=? 138) || (z =? 168) || (z =? 169)
          || (z =? 175))
   || (x =? 226) && (y =? 129) && (z =? 159)
   || (x =? 227) && (y =? 128) && (z =? 128))%nat.

(** [bool(s.strip())]: whether some character of [s] is not white
    space. Leading white space is passed over, one character (one, two
    or three bytes) at a time. *)
Fixpoint strip_nonempty (s : string) : bool :=
  match s with
  | String.EmptyString => false
  | String.String a r1 =>
      if is_space a then strip_nonempty r1
      else
        match r1 with
        | String.EmptyString => true
        | String.String b r2 =>
            if is_space2 a b then strip_nonempty r2
            else
              match r2 with
              | String.EmptyString => true
              | String.String c r3 =>
                  if is_space3 a b c then strip_nonempty r3 else true
              end
        end
  end.

(** [stop_speaking] (lines 222-227) *)
Definition stop_speaking (sd_raises : bool) : M App unit :=
  try_pass (stop_current ;;; sd_stop sd_raises).

(** [speak_safe] (lines 229-253) *)
Definition speak_safe (x : Turn) (text : string) : M App unit :=
  if negb (nonempty_string text) then ret tt
  else if negb (tn_tts_ok x) then ret tt
  else stop_speaking (tn_sd_raises x) ;;; act (Spoke text).

(** [traceback.print_exc()] inside [main_thread], where [traceback] is
    a local name bound only by the [import] of line 478. *)
Definition traceback_print_exc : M App unit :=
  a <- get ;;
  if traceback_bound a then ret tt else raise UnboundLocalError.

(** Lines 513-558: local commands, then the remote AI. *)
Definition respond (x : Turn) (user_message : string) : M App unit :=
  r <- try_except
         (match tn_local x with
          | Some r => ret r
          | None => raise OtherError
          end)
         (traceback_print_exc ;;; ret (true, EmptyString, user_message)) ;;
  let '(should_continue, local_response, pass_text) := r in
  (if nonempty_string local_response
   then speak_safe x local_response else ret tt) ;;;
  if should_continue then
    try_except
      (resume_interruption ;;;
       (if negb (nonempty_string local_response)
        then act (Play "Resources/voice_msgs/thinking.wav") else ret tt) ;;;
       a <- get ;;
       act (AiDispatch (allow_listening_to_user (system_state a))) ;;;
       match tn_ai x with
       | None => raise OtherError
       | Some ai_response =>
           (if nonempty_string ai_response && strip_nonempty ai_response
            then act (Play "Resources/voice_msgs/got_it.wav") ;;;
                 speak_safe x ai_response
            else ret tt) ;;;
           pause_interruption
       end)
      traceback_print_exc
  else ret tt.

(** The [try] block of one iteration (lines 419-558). The local
    [listening] is [True] throughout (the assignments of lines 522-527
    sit inside a string literal), so the branch of line 425 is never
    taken and the test of line 534 is [should_continue] alone. *)
Definition turn_try (env : Env) (self : AudioRecorder) (x : Turn)
  : M App unit :=
  pause_interruption ;;;
  a <- get ;;
  (if negb (is_first_time a)
   then act (Play "Resources/voice_msgs/bell.wav") else ret tt) ;;;
  modify (fun a => with_locals false (traceback_bound a) a) ;;;
  a <- get ;;
  act (PrimaryListen (allow_listening_to_user (system_state a))) ;;;
  audio_pcm <- record env self primary_params (tn_fuel x) ;;
  if negb (nonempty_bytes audio_pcm) then ret tt
  else
    audio_wav <- match tn_wav x with
                 | Some w => ret w
                 | None => raise OtherError
                 end ;;
    if negb (nonempty_bytes audio_wav) then ret tt
    else
      act Transcribe ;;;
      match tn_stt x with
      | None =>
          (* except: import traceback; traceback.print_exc(); continue *)
          modify (fun a => with_locals (is_first_time a) true a)
      | Some user_input =>
          if negb (strip_nonempty user_input) then ret tt
          else if tn_is_stop x then
            try_pass (interrupt (tn_sd_raises x))
          else
            a <- get ;;
            if allow_wake_word a && negb (fst (tn_wake x)) then ret tt
            else
              let user_message :=
                if allow_wake_word a then snd (tn_wake x) else user_input in
              if negb (nonempty_string user_message)
              then act (Play "Resources/voice_msgs/yes_how_help.wav")
              else respond x user_message
      end.

(** One iteration of [while system_state.is_active] with the handler
    of line 563-566. *)
Definition turn (env : Env) (self : AudioRecorder) (x : Turn)
  : M App unit :=
  try_except (turn_try env self x)
             (traceback_print_exc ;;; act (Sleep (2 # 10))).

(** [main_thread] from its loop on: one [Turn] answer per iteration. *)
Fixpoint main_thread (env : Env) (self : AudioRecorder)
    (turns : list Turn) : M App unit :=
  match turns with
  | [] => ret tt
  | x :: rest =>
      a <- get ;;
      if is_active (system_state a) then
        turn env self x ;;;
        main_thread env self rest
      else ret tt
  end.

(** *** Vocabulary of the statements about the gate *)

Definition gate (a : App) : bool := allow_listening_to_user (system_state a).

(** An act is in order when a primary listen finds the gate closed and
    a dispatch to the AI finds it equal to [allow_interruption]. *)
Definition act_ok (ai : bool) (e : Act) : Prop :=
  match e with
  | PrimaryListen g => g = false
  | AiDispatch g => g = ai
  | _ => True
  end.

(** [a'] continues [a]: same configuration, and the acts added are in
    order. *)
Definition continues (a a' : App) : Prop :=
  allow_interruption a' = allow_interruption a
  /\ exists evs, acts a' = acts a ++ evs
                 /\ Forall (act_ok (allow_interruption a)) evs.

(** The state when [initialize_settings] has found barge-in enabled
    ([--allow_interruption true]), which is when [main] starts
    [interruption_thread]. *)
Definition barge_in_enabled (w : World) : App := {|
  system_state := system_state (module_init w);
  allow_interruption := true;
  allow_wake_word := true;
  audio_queue := [];
  audio_player := audio_player (module_init w);
  sd_playing := false;
  mic := w;
  is_first_time := true;
  traceback_bound := false;
  acts := []
|}.

End Assistant.

(** ** Concrete devices for the scenarios *)

Module Scenario.

Import Py Eff Recorder Assistant.
Import String.StringSyntax.

Definition byte_of_Z (z : Z) : byte :=
  match Byte.of_N (Z.to_N (z mod 256)) with
  | Some b => b
  | None => x00
  end.

(** One 16-bit little-endian sample. *)
Definition sample16 (v : Z) : bytes :=
  [byte_of_Z v; byte_of_Z (v / 256)].

(** A chunk of [n] samples of constant amplitude [v]. *)
Definition tone (v : Z) (n : nat) : bytes := concat (repeat (sample16 v) n).

Fixpoint samples16 (data : bytes) : list Z :=
  match data with
  | lo :: hi :: rest =>
      let u := (Z.of_N (Byte.to_N lo) + 256 * Z.of_N (Byte.to_N hi))%Z in
      (if (u <? 32768)%Z then u else u - 65536)%Z :: samples16 rest
  | _ => []
  end.

(** An energy meter for 16-bit PCM: the integer part of the root of the
    mean square of the samples (0 for an empty fragment), which is what
    [audioop.rms(data, 2)] computes. *)
Definition rms16 (data : bytes) (_ : Z) : Z :=
  let xs := samples16 data in
  match xs with
  | [] => 0%Z
  | _ :: _ =>
      Z.sqrt (sum (map (fun x => x * x)%Z xs) / Z.of_nat (length xs))
  end.

(** The recorder of Config.py: 16 kHz, 16 bit, mono, chunks of 256. *)
Definition config_recorder : AudioRecorder :=
  {| rate := 16000; width := 2; channels := 1; chunk := 256 |}.

(** A chunk of 256 frames at 16 kHz takes 16 ms to arrive. *)
Definition chunk_time : Q := 2 # 125.

(** A device that delivers the chunks whose amplitudes are listed, one
    per read, and then chunks of amplitude [rest] for ever. *)
Definition mic_of (levels : list Z) (rest : Z) (i : nat) : MicRead :=
  {| rd_time := chunk_time;
     rd_data := Some (tone (nth i levels rest) 256) |}.

Definition env_of (levels : list Z) (rest : Z) : Env :=
  {| env_has_pyaudio := true; env_open := true;
     env_mic := mic_of levels rest; env_rms := rms16 |}.

(** A recorder that has been used before: backend and stream are up. *)
Definition world_at (t : Q) : World :=
  {| w_clock := t; w_pos := 0; w_pa := true; w_stream := true;
     w_log := [] |}.

(** The silent-room scenario: 3 chunks at 40, 5 at 200, 15 at 30 (and
    quiet chunks afterwards for the post-silence hold), after [n] chunks
    at 50 that are read during calibration. With [n = 0] calibration is
    skipped and the noise floor is the default 50. *)
Definition silent_room_levels : list Z :=
  repeat 40%Z 3 ++ repeat 200%Z 5 ++ repeat 30%Z 15.

Definition silent_room_env (n : nat) : Env :=
  env_of (repeat 50%Z n ++ silent_room_levels) 30.

Definition silent_room_params (n : nat) : Params := {|
  max_duration := 25;
  noise_calib_duration := inject_Z (Z.of_nat n) * chunk_time;
  start_frames := 3;
  end_frames := 15;
  post_silence_hold := 35 # 100;
  pre_roll_ms := 300;
  min_speech_after_start := 0;
  threshold_boost := 2
|}.



(** A stream in which the energy drops right after speech has started:
    3 loud chunks, then quiet ones. *)
Definition early_drop_env : Env := env_of (repeat 200%Z 3) 30.

Definition early_drop_params : Params := {|
  max_duration := 25;
  noise_calib_duration := 0;
  start_frames := 3;
  end_frames := 15;
  post_silence_hold := 35 # 100;
  pre_roll_ms := 300;
  min_speech_after_start := 18 # 10;
  threshold_boost := 2
|}.

(** A quiet room: every chunk at amplitude 30. *)
Definition quiet_env : Env := env_of [] 30.


(** The defaults of the signature, but no pre-roll. *)
Definition no_preroll_params : Params := {|
  max_duration := 25;
  noise_calib_duration := 8 # 10;
  start_frames := 3;
  end_frames := 15;
  post_silence_hold := 35 # 100;
  pre_roll_ms := 0;
  min_speech_after_start := 18 # 10;
  threshold_boost := 2
|}.

Local Open Scope string_scope.

(** A turn in which the user is understood, nothing is handled
    locally, and the remote AI answers. *)
Definition answering_turn : Turn := {|
  tn_fuel := 1700;
  tn_wav := Some [x00];
  tn_stt := Some "ziko hello";
  tn_is_stop := false;
  tn_sd_raises := false;
  tn_wake := (true, "hello");
  tn_local := Some (true, String.EmptyString, "hello");
  tn_tts_ok := true;
  tn_ai := Some "hi"
|}.

(** A round of the barge-in listener in which a stop word is heard. *)
Definition stop_round : BargeIn := {|
  bi_fuel := 200;
  bi_stt := Some "stop";
  bi_is_stop := fun _ => true;
  bi_sd_raises := false
|}.

Local Close Scope string_scope.

(** A device whose third read fails. *)
Definition failing_env : Env :=
  {| env_has_pyaudio := true; env_open := true;
     env_mic := fun i =>
       {| rd_time := chunk_time;
          rd_data := if (i =? 2)%nat then None else Some (tone 30 256) |};
     env_rms := rms16 |}.

End Scenario.

(** ** Vocabulary and devices of the statements about failing reads *)

Module ReadFailures.

Import Py Eff Recorder Scenario.





End ReadFailures.

(** ** More of src/audio_recorder.py: [close] and [record_fixed] *)

Module RecorderOps.

Import Py Eff Recorder.

(** [close] (lines 111-132): whatever the backend raises while the
    stream is stopped and closed and PyAudio is terminated is swallowed;
    [self._stream] and [self._pa] are [None] afterwards. *)
Definition close : M World unit :=
  modify (fun w => {| w_clock := w_clock w; w_pos := w_pos w;
                      w_pa := false; w_stream := false;
                      w_log := w_log w |}).

(** *** The arithmetic of line 141, in binary64 *)

Definition float : Set := PrimFloat.float.

(** An [int] that meets a [float] in [*] or [/] is converted to the
    nearest double, ties to even; when that is out of range Python
    raises OverflowError ([OtherError] here). *)
Definition float_of_int (z : Z) : Exn + float :=
  let f := FloatOps.SF2Prim
             (SpecFloat.binary_normalize FloatOps.prec FloatOps.emax
                z 0 false) in
  if PrimFloat.is_infinity f then inl OtherError else inr f.

(** [int(x)] on a [float]: truncation towards zero; ValueError for a
    NaN and OverflowError ([OtherError] here) for an infinity. *)
Definition int_of_double (x : float) : Exn + Z :=
  match FloatOps.Prim2SF x with
  | SpecFloat.S754_zero _ => inr 0%Z
  | SpecFloat.S754_finite s m e =>
      let v := Z.shiftl (Z.pos m) e in
      inr (if s then (- v)%Z else v)
  | SpecFloat.S754_infinity _ => inl OtherError
  | SpecFloat.S754_nan => inl ValueError
  end.

(** [total_frames = int(self.rate * duration_sec / self.chunk)] (line
    141), for a [duration_sec] that is a [float] as annotated: the
    product and the quotient are rounded as doubles are, and the float
    division raises when [self.chunk] is 0. *)
Definition total_frames (self : AudioRecorder) (duration_sec : float)
  : Exn + Z :=
  match float_of_int (rate self) with
  | inl e => inl e
  | inr r =>
      let x := PrimFloat.mul r duration_sec in
      match float_of_int (chunk self) with
      | inl e => inl e
      | inr c =>
          if PrimFloat.eqb c PrimFloat.zero then inl ZeroDivisionError
          else int_of_double (PrimFloat.div x c)
      end
  end.

Definition lift {A : Type} (r : Exn + A) : M World A :=
  match r with
  | inl e => raise e
  | inr a => ret a
  end.

(** One round of [for _ in range(total_frames)] (lines 143-145). *)
Definition fixed_body (env : Env) (fr : list bytes)
  : M World (list bytes + list bytes) :=
  data <- stream_read env ;;
  ret (inl (fr ++ [data])).

(** [record_fixed] (lines 136-146). *)
Definition record_fixed (env : Env) (self : AudioRecorder)
    (duration_sec : float) : M World bytes :=
  ensure_stream env self ;;;
  n <- lift (total_frames self duration_sec) ;;
  fr <- for_range (fixed_body env) (Z.to_nat n) [] ;;
  ret (concat fr).

End RecorderOps.

(** Durations as the doubles Python reads them from their decimals. *)
Module Durations.

Import PrimFloat.

(** [0.1] *)
Definition tenth_of_a_second : float := 0x1.999999999999ap-4%float.

(** [0.144] *)
Definition d_0_144 : float := 0x1.26e978d4fdf3bp-3%float.

(** [16.016] *)
Definition d_16_016 : float := 0x1.004189374bc6ap+4%float.

End Durations.

(** ** Bounded queues: [safe_put] (src/main.py, lines 256-262) and
    [AudioPlayer._safe_put] (src/audio_player.py, lines 138-147) *)

Module Queues.

(** [queue.Queue(maxsize)]: unbounded when [maxsize <= 0]. *)
Record Queue (A : Type) : Type := { maxsize : Z; items : list A }.

Arguments maxsize {A} q.
Arguments items {A} q.

Inductive QueueExn : Type := Full | Empty.

(** [q.full()] as [put_nowait] tests it. *)
Definition full {A : Type} (q : Queue A) : bool :=
  ((0 <? maxsize q) && (maxsize q <=? Z.of_nat (length (items q))))%Z.

(** [q.put_nowait(item)] *)
Definition put_nowait {A : Type} (q : Queue A) (item : A)
  : QueueExn + Queue A :=
  if full q then inl Full
  else inr {| maxsize := maxsize q; items := items q ++ [item] |}.

(** [q.get_nowait()] *)
Definition get_nowait {A : Type} (q : Queue A) : QueueExn + (A * Queue A) :=
  match items q with
  | [] => inl Empty
  | x :: rest => inr (x, {| maxsize := maxsize q; items := rest |})
  end.

(** [safe_put]: on any failure of the first [put_nowait] the oldest
    item is dropped ([Empty] is passed over) and the put is tried once
    more; what that second put raises is not caught. *)
Definition safe_put {A : Type} (q : Queue A) (item : A)
  : QueueExn + Queue A :=
  match put_nowait q item with
  | inr q' => inr q'
  | inl _ =>
      let q1 := match get_nowait q with
                | inr (_, q1) => q1
                | inl _ => q
                end in
      put_nowait q1 item
  end.

(** The queue a run of [safe_put]s leaves, as long as none raises. *)
Fixpoint safe_put_all {A : Type} (q : Queue A) (xs : list A)
  : QueueExn + Queue A :=
  match xs with
  | [] => inr q
  | x :: rest =>
      match safe_put q x with
      | inr q' => safe_put_all q' rest
      | inl e => inl e
      end
  end.

(** The bound a queue keeps. *)
Definition within_bound {A : Type} (q : Queue A) : Prop :=
  (0 < maxsize q)%Z -> (Z.of_nat (length (items q)) <= maxsize q)%Z.

End Queues.

(** ** src/audio_player.py: the job queue, debouncing and cancellation *)

Module Player.

Import Py Eff Queues.
Import String.StringSyntax.

(** [AudioJob] (lines 19-26); the two [Event]s are their flags. *)
Record AudioJob : Type := {
  path : String.string;
  blocking : bool;
  volume : Q;
  done : bool;
  canceled : bool
}.

(** [AudioJob(path=..., blocking=..., volume=...)] *)
Definition new_job (p : String.string) (b : bool) (v : Q) : AudioJob :=
  {| path := p; blocking := b; volume := v; done := false;
     canceled := false |}.

(** The fields of [AudioPlayer] (lines 49-63) and the wall clock. *)
Record AudioPlayer : Type := {
  queue : Queue AudioJob;
  running : bool;
  pa_ready : bool;                       (* [self._pa is not None] *)
  current_job : option AudioJob;
  last_play_ts : String.string -> option Q;     (* [dict[str, float]] *)
  min_gap_sec : Q;
  clock : Q                              (* [time.time()] *)
}.

(** [__init__] (lines 43-63), at clock reading [t]. *)
Definition init (t : Q) : AudioPlayer := {|
  queue := {| maxsize := 8; items := [] |};
  running := false;
  pa_ready := false;
  current_job := None;
  last_play_ts := fun _ => None;
  min_gap_sec := 35 # 100;
  clock := t
|}.

(** [start] (lines 67-79); [pa_ok] tells whether PyAudio comes up. *)
Definition start (pa_ok : bool) (p : AudioPlayer) : AudioPlayer :=
  if running p then p
  else {| queue := queue p; running := true; pa_ready := pa_ok;
          current_job := current_job p; last_play_ts := last_play_ts p;
          min_gap_sec := min_gap_sec p; clock := clock p |}.

Definition set_queue (q : Queue AudioJob) (p : AudioPlayer) : AudioPlayer :=
  {| queue := q; running := running p; pa_ready := pa_ready p;
     current_job := current_job p; last_play_ts := last_play_ts p;
     min_gap_sec := min_gap_sec p; clock := clock p |}.

(** Time passing while nothing else happens. *)
Definition wait (d : Q) (p : AudioPlayer) : AudioPlayer :=
  {| queue := queue p; running := running p; pa_ready := pa_ready p;
     current_job := current_job p; last_play_ts := last_play_ts p;
     min_gap_sec := min_gap_sec p; clock := clock p + d |}.

(** [min(a, b)] with two arguments: the first one is kept unless the
    second is strictly smaller. *)
Definition min2 (a b : Q) : Q := if Qltb b a then b else a.

(** [max(0.0, min(1.0, volume))] *)
Definition clamp_volume (v : Q) : Q := max2 0 (min2 1 v).

Definition nonempty (s : String.string) : bool :=
  match s with String.EmptyString => false | String.String _ _ => true end.

(** [_debounced] (lines 268-272) *)
Definition debounced (p : AudioPlayer) (path : String.string) : bool :=
  match last_play_ts p path with
  | None => false
  | Some last => Qltb (clock p - last) (min_gap_sec p)
  end.

(** [play_async] (lines 106-115): the job returned and the player
    afterwards, or what [_safe_put] raised. *)
Definition play_async (p : AudioPlayer) (path : String.string) (vol : Q)
  : QueueExn + (AudioJob * AudioPlayer) :=
  if negb (nonempty path) then inr (new_job String.EmptyString false 1, p)
  else if debounced p path then inr (new_job path false 1, p)
  else
    let job := new_job path false (clamp_volume vol) in
    match safe_put (queue p) job with
    | inr q => inr (job, set_queue q p)
    | inl e => inl e
    end.

(** [flush_queue] (lines 275-280): items are taken out until [Empty]. *)
Definition flush_queue (p : AudioPlayer) : AudioPlayer :=
  set_queue {| maxsize := maxsize (queue p);
                items := Assistant.drain (items (queue p)) |} p.

(** [stop_current] (lines 126-134) *)
Definition stop_current (p : AudioPlayer) : AudioPlayer :=
  flush_queue
    {| queue := queue p; running := running p; pa_ready := pa_ready p;
       current_job :=
         match current_job p with
         | Some j => Some {| path := path j; blocking := blocking j;
                             volume := volume j; done := done j;
                             canceled := true |}
         | None => None
         end;
       last_play_ts := last_play_ts p;
       min_gap_sec := min_gap_sec p; clock := clock p |}.

(** What one round of the worker meets: whether the file of a path
    exists, how long the clip plays, and what [self._running] reads at
    line 161. *)
Record Round : Type := {
  file_exists : String.string -> bool;
  play_time : Q;
  running_again : bool
}.

(** [self._last_play_ts[k] = t] *)
Definition set_ts (p : AudioPlayer) (k : String.string) (t : Q) : String.string -> option Q :=
  fun k' => if String.eqb k' k then Some t else last_play_ts p k'.

(** [job.done.set()] *)
Definition set_done (j : AudioJob) : AudioJob :=
  {| path := path j; blocking := blocking j; volume := volume j;
     done := true; canceled := canceled j |}.

(** [os.path.exists(path)]: never true of the empty path. *)
Definition exists_on_disk (r : Round) (s : String.string) : bool :=
  nonempty s && file_exists r s.

(** One round of [while True] in [_run] (lines 150-181): the player
    afterwards, whether the loop goes on, and the job whose [done] was
    set. A round that finds the queue empty has waited 0.5 s for a job;
    [_play_wav_job] (lines 183-266) returns at once without PyAudio and
    otherwise holds the job as [_current_job] while the clip plays. *)
Definition run_round (r : Round) (p : AudioPlayer)
  : AudioPlayer * bool * option AudioJob :=
  if negb (running p) then (p, false, None)
  else
    match get_nowait (queue p) with
    | inl _ => (wait (5 # 10) p, true, None)
    | inr (job, q) =>
        let p1 := set_queue q p in
        if negb (nonempty (path job)) && negb (running_again r)
        then (p1, false, Some (set_done job))
        else if negb (exists_on_disk r (path job))
        then (p1, true, Some (set_done job))
        else
          let p2 := if pa_ready p1 then wait (play_time r) p1 else p1 in
          ({| queue := queue p2; running := running p2;
              pa_ready := pa_ready p2;
              current_job := if pa_ready p1 then None else current_job p1;
              last_play_ts := set_ts p2 (path job) (clock p2);
              min_gap_sec := min_gap_sec p2; clock := clock p2 |},
           true, Some (set_done job))
    end.

(** *** Vocabulary of the statements about the player *)

(** A job as [play_async] makes them: a path and a volume in [0, 1]. *)
Definition job_ok (j : AudioJob) : Prop :=
  nonempty (path j) = true /\ 0 <= volume j /\ volume j <= 1.

(** The queue of [__init__], never over its bound, holding such jobs. *)
Definition queue_ok (p : AudioPlayer) : Prop :=
  maxsize (queue p) = 8%Z
  /\ (length (items (queue p)) <= 8)%nat
  /\ Forall job_ok (items (queue p)).

(** *** A player with one clip waiting *)

Local Open Scope string_scope.

Definition bell : String.string := "Resources/voice_msgs/bell.wav".

Local Close Scope string_scope.

Definition queued_bell : AudioPlayer :=
  set_queue {| maxsize := 8; items := [new_job bell false 1] |}
    (start true (init 1000)).

(** A round in which every file is found and the clip lasts a second. *)
Definition plays_all : Round :=
  {| file_exists := fun _ => true; play_time := 1; running_again := true |}.

End Player.

(** ** src/main.py: [initialize_settings] and the threads of [main] *)

Module Startup.

Import Py Eff Recorder Assistant.
Import String.StringSyntax.
Local Open Scope string_scope.

(** What [parse_args] returns: a flag or option that was not given is
    [None]. *)
Record Args : Type := {
  arg_allow_interruption : option bool;
  arg_allow_wake_word : option bool;
  arg_device : option string;
  arg_eye_model : option string
}.

(** The attributes of [Config] that are read (src/Config.py). *)
Record Config : Type := {
  ALLOW_INTERRUPTION : bool;
  ALLOW_WAKE_WORD : bool;
  DEVICE : string;
  EYE_MODEL : string
}.

Inductive EyeModule : Type :=
| eye_runner_zero | eye_runner | eye_video_player | face_tracker.

(** The value of [eye_model] for which each module is imported. *)
Definition model_name (m : EyeModule) : string :=
  match m with
  | eye_runner_zero => "draw"
  | eye_runner => "img"
  | eye_video_player => "video"
  | face_tracker => "track"
  end.

(** The globals [initialize_settings] assigns. *)
Record Settings : Type := {
  set_allow_interruption : bool;
  set_allow_wake_word : bool;
  set_device : string;
  set_eye_model : string;
  has_eye_model : bool;
  eye : option EyeModule
}.

(** [x if x is not None else y] *)
Definition if_given {A : Type} (x : option A) (y : A) : A :=
  match x with Some v => v | None => y end.

(** [x or y] for an optional string [x]: [None] and the empty string
    are falsy. *)
Definition str_or (x : option string) (y : string) : string :=
  match x with
  | Some s => if nonempty_string s then s else y
  | None => y
  end.

Definition lower_ascii (c : ascii) : ascii :=
  let n := nat_of_ascii c in
  if ((65 <=? n) && (n <=? 90))%nat then ascii_of_nat (n + 32) else c.

(** [s.lower()] on ASCII text. *)
Fixpoint lower (s : string) : string :=
  match s with
  | String.EmptyString => String.EmptyString
  | String.String c rest => String.String (lower_ascii c) (lower rest)
  end.

(** [initialize_settings] (lines 265-295). *)
Definition initialize_settings (args : Args) (config : Config) : Settings :=
  let ai := if_given (arg_allow_interruption args) (ALLOW_INTERRUPTION config) in
  let aw := if_given (arg_allow_wake_word args) (ALLOW_WAKE_WORD config) in
  let dev := str_or (arg_device args) (DEVICE config) in
  let em := str_or (arg_eye_model args) (EYE_MODEL config) in
  let '(has, e) :=
    if String.eqb (lower em) "none" then (false, None)
    else if String.eqb em "draw" then (true, Some eye_runner_zero)
    else if String.eqb em "img" then (true, Some eye_runner)
    else if String.eqb em "video" then (true, Some eye_video_player)
    else if String.eqb em "track" then (true, Some face_tracker)
    else (false, None) in
  {| set_allow_interruption := ai; set_allow_wake_word := aw;
     set_device := dev; set_eye_model := em;
     has_eye_model := has; eye := e |}.

Inductive Thread : Type :=
| InterruptionThread
| EyeThread (m : EyeModule)
| MainThread.

(** The list [threads] that [main] builds and starts (lines 580-600). *)
Definition threads (s : Settings) : list Thread :=
  (if set_allow_interruption s then [InterruptionThread] else [])
  ++ (match has_eye_model s, eye s with
      | true, Some m => [EyeThread m]
      | _, _ => []
      end)
  ++ [MainThread].

(** The module state when [initialize_settings] has run. *)
Definition configured (s : Settings) (w : World) : App := {|
  system_state := system_state (module_init w);
  allow_interruption := set_allow_interruption s;
  allow_wake_word := set_allow_wake_word s;
  audio_queue := [];
  audio_player := audio_player (module_init w);
  sd_playing := false;
  mic := w;
  is_first_time := true;
  traceback_bound := false;
  acts := []
|}.

End Startup.

(** ** Vocabulary of the statements about the threads *)

Module Threads.

Import Py Eff Recorder Assistant.

(** What a piece of a thread leaves alone: the configuration and
    [is_active]; a bound [traceback] stays bound; and the gate is open
    afterwards only if it was open before or barge-in is enabled. *)
Definition keeps (a a' : App) : Prop :=
  allow_interruption a' = allow_interruption a
  /\ allow_wake_word a' = allow_wake_word a
  /\ is_active (system_state a') = is_active (system_state a)
  /\ (traceback_bound a = true -> traceback_bound a' = true)
  /\ (gate a' = true -> gate a = true \/ allow_interruption a = true).

(** The acts that reach the user or the remote AI. *)
Definition is_reply (e : Act) : bool :=
  match e with
  | AiDispatch _ => true
  | Spoke _ => true
  | _ => false
  end.

End Threads.

(** * Properties *)

(** ** Facts about the Python built-ins *)

Module PyFacts.

Import Py.

Lemma Qltb_lt (a b : Q) : Qltb a b = true <-> a < b.
Proof.
  unfold Qltb. rewrite negb_true_iff.
  split; intro H.
  - apply Qnot_le_lt. intro Hle. apply Qle_bool_iff in Hle. congruence.
  - destruct (Qle_bool b a) eqn:E; [|reflexivity].
    apply Qle_bool_iff in E. exfalso. apply (Qlt_not_le _ _ H E).
Qed.

Lemma Qltb_ge (a b : Q) : Qltb a b = false <-> b <= a.
Proof.
  unfold Qltb. rewrite negb_false_iff. apply Qle_bool_iff.
Qed.

Lemma Qle_bool_gt (a b : Q) : Qle_bool a b = false <-> b < a.
Proof.
  rewrite <- Qltb_lt. unfold Qltb. rewrite negb_true_iff. reflexivity.
Qed.

Lemma max2_ub_l (a b : Q) : a <= max2 a b.
Proof.
  unfold max2. destruct (Qltb a b) eqn:E.
  - apply Qltb_lt in E. lra.
  - lra.
Qed.

Lemma max2_ub_r (a b : Q) : b <= max2 a b.
Proof.
  unfold max2. destruct (Qltb a b) eqn:E.
  - lra.
  - apply Qltb_ge in E. exact E.
Qed.

Lemma max2_lub (a b c : Q) : a <= c -> b <= c -> max2 a b <= c.
Proof.
  unfold max2. destruct (Qltb a b); auto.
Qed.

Lemma join_concat {A : Type} (frames : list (list A)) :
  join frames = concat frames.
Proof. destruct frames; reflexivity. Qed.

Lemma sum_from_nonneg (xs : list Z) (a : Z) :
  Forall (fun x => (0 <= x)%Z) xs -> (0 <= a)%Z ->
  (0 <= fold_left Z.add xs a)%Z.
Proof.
  intros H. revert a.
  induction H as [|x xs Hx _ IH]; intros a Ha; simpl.
  - exact Ha.
  - apply IH. lia.
Qed.

Lemma tl_skipn_snoc {A : Type} (l : list A) (x : A) (k : nat) :
  (k <= length l)%nat ->
  tl (skipn k l ++ [x]) = skipn (S k) (l ++ [x]).
Proof.
  revert k. induction l as [|a l IH]; intros k Hk; simpl in Hk.
  - assert (k = 0)%nat by lia. subst k. reflexivity.
  - destruct k as [|k].
    + reflexivity.
    + change (skipn (S k) (a :: l)) with (skipn k l).
      change (skipn (S (S k)) ((a :: l) ++ [x]))
        with (skipn (S k) (l ++ [x])).
      apply IH. lia.
Qed.

(** Appending to a bounded deque that holds the last [m] items of [l]
    leaves it holding the last [m] items of [l ++ [x]]. *)
Lemma deque_append_skipn {A : Type} (m : nat) (l : list A) (x : A) :
  deque_append m (skipn (length l - m) l) x
  = skipn (length (l ++ [x]) - m) (l ++ [x]).
Proof.
  unfold deque_append.
  rewrite !length_app, length_skipn.
  change (length [x]) with 1%nat.
  destruct (Nat.ltb_spec m (length l - (length l - m) + 1)) as [Hlt | Hge].
  - (* the deque was full *)
    replace (length l + 1 - m)%nat with (S (length l - m)) by lia.
    apply tl_skipn_snoc. lia.
  - (* still room *)
    replace (length l - m)%nat with 0%nat by lia.
    replace (length l + 1 - m)%nat with 0%nat by lia.
    reflexivity.
Qed.

End PyFacts.

(** ** Reasoning about loops *)

Module EffFacts.

Import Eff Recorder.

Section Loops.

Context {St S R : Type}.
Variable body : S -> M St (S + R).

(** Invariant rule for [loop]. *)
Lemma loop_inv (I : S -> St -> Prop) (P : Outcome R -> St -> Prop) :
  (forall s w, I s w ->
     match body s w with
     | (Ok (inl s'), w') => I s' w'
     | (Ok (inr r), w') => P (Ok r) w'
     | (Raise e, w') => P (Raise e) w'
     | (Diverge, w') => P Diverge w'
     end) ->
  (forall s w, I s w -> P Diverge w) ->
  forall fuel s w, I s w ->
    P (fst (loop body fuel s w)) (snd (loop body fuel s w)).
Proof.
  intros Hbody Hdiv fuel.
  induction fuel as [|n IH]; intros s w HI; simpl.
  - apply Hdiv with s. exact HI.
  - unfold bind. specialize (Hbody s w HI).
    destruct (body s w) as [[[s' | r] | e |] w']; simpl; auto.
Qed.

(** The same rule when the loop is given at least one round: [J] is
    the invariant once a round has been made, and what holds when
    the fuel runs out is only asked of [J]. *)
Lemma loop_inv_S (I J : S -> St -> Prop) (P : Outcome R -> St -> Prop) :
  (forall s w, I s w ->
     match body s w with
     | (Ok (inl s'), w') => J s' w'
     | (Ok (inr r), w') => P (Ok r) w'
     | (Raise e, w') => P (Raise e) w'
     | (Diverge, w') => P Diverge w'
     end) ->
  (forall s w, J s w -> I s w) ->
  (forall s w, J s w -> P Diverge w) ->
  forall n s w, I s w ->
    P (fst (loop body (Datatypes.S n) s w))
      (snd (loop body (Datatypes.S n) s w)).
Proof.
  intros HI HJ Hdiv n s w Hs. simpl. unfold bind.
  pose proof (HI s w Hs) as H1.
  destruct (body s w) as [[[s' | r] | e |] w']; simpl; auto.
  apply loop_inv with (I := J).
  - intros s0 w0 H0. apply HI, HJ, H0.
  - exact Hdiv.
  - exact H1.
Qed.

(** A loop whose rounds each use up at least [d > 0] of a budget
    [mu], and which only goes round while the budget is positive,
    ends within [mu / d] rounds. *)
Lemma loop_fuel (mu : St -> Q) (d : Q) :
  0 < d ->
  (forall s w,
     match body s w with
     | (Ok (inl _), w') => 0 < mu w /\ mu w' <= mu w - d
     | (Diverge, _) => False
     | _ => True
     end) ->
  forall n s w,
    mu w <= inject_Z (Z.of_nat n) * d ->
    is_diverge (fst (loop body (Datatypes.S n) s w)) = false.
Proof.
  intros Hd Hbody n.
  induction n as [|n IH]; intros s w Hmu.
  - simpl. unfold bind. specialize (Hbody s w).
    destruct (body s w) as [[[s' | r] | e |] w']; simpl; auto.
    + exfalso. change (inject_Z (Z.of_nat 0)) with 0 in Hmu. lra.
    + contradiction.
  - change (loop body (Datatypes.S (Datatypes.S n)) s w)
      with (bind (body s) (fun x =>
              match x with
              | inl s' => loop body (Datatypes.S n) s'
              | inr r => ret r
              end) w).
    unfold bind. specialize (Hbody s w).
    destruct (body s w) as [[[s' | r] | e |] w']; simpl; auto.
    + apply IH. destruct Hbody as [_ Hdec].
      rewrite Nat2Z.inj_succ in Hmu. unfold Z.succ in Hmu.
      rewrite inject_Z_plus in Hmu. change (inject_Z 1) with 1 in Hmu.
      assert (Hr : (inject_Z (Z.of_nat n) + 1) * d
                   == inject_Z (Z.of_nat n) * d + d) by ring.
      rewrite Hr in Hmu. lra.
    + contradiction.
Qed.

End Loops.

Section Ranges.

Context {St S : Type}.
Variable body : S -> M St (S + S).

(** Invariant rule for [for_range]. *)
Lemma for_range_inv (I : S -> St -> Prop) (P : Outcome S -> St -> Prop) :
  (forall s w, I s w ->
     match body s w with
     | (Ok (inl s'), w') => I s' w'
     | (Ok (inr s'), w') => P (Ok s') w'
     | (Raise e, w') => P (Raise e) w'
     | (Diverge, w') => P Diverge w'
     end) ->
  (forall s w, I s w -> P (Ok s) w) ->
  forall n s w, I s w ->
    P (fst (for_range body n s w)) (snd (for_range body n s w)).
Proof.
  intros Hbody Hend n.
  induction n as [|n IH]; intros s w HI; simpl.
  - apply Hend. exact HI.
  - unfold bind. specialize (Hbody s w HI).
    destruct (body s w) as [[[s' | s'] | e |] w']; simpl; auto.
Qed.

End Ranges.

(** For every duration there is a number of rounds of length [d > 0]
    that covers it. *)
Lemma rounds_for_covers (x d : Q) :
  0 < d -> x <= inject_Z (Z.of_nat (rounds_for x d)) * d.
Proof.
  intros Hd. unfold rounds_for.
  assert (Hc : x / d <= inject_Z (Qceiling (x / d))) by apply Qle_ceiling.
  assert (Hz : inject_Z (Qceiling (x / d))
               <= inject_Z (Z.of_nat (Z.to_nat (Qceiling (x / d))))).
  { rewrite <- Zle_Qle. lia. }
  assert (Hx : x == (x / d) * d).
  { field. intro H0. rewrite H0 in Hd. apply (Qlt_irrefl 0 Hd). }
  rewrite Hx at 1.
  apply Qmult_le_compat_r; [|lra].
  apply Qle_trans with (inject_Z (Qceiling (x / d))); assumption.
Qed.

End EffFacts.

(** ** Facts about the recorder *)

Module RecorderFacts.

Import Py Eff Recorder PyFacts EffFacts.

(** *** One round of each loop, by cases *)

Lemma calib_body_cases env self m ce (s : Calib) w :
  (ce <= w_clock w
   /\ calib_body env self m ce s w = (Ok (inr s), w))
  \/ (w_clock w < ce
      /\ rd_data (env_mic env (w_pos w)) = None
      /\ calib_body env self m ce s w = (Raise DeviceError, advance env w))
  \/ (exists d,
        w_clock w < ce
        /\ rd_data (env_mic env (w_pos w)) = Some d
        /\ calib_body env self m ce s w
           = (Ok (inl (fst s ++ [env_rms env d (width self)],
                       deque_append m (snd s) d)), advance env w)).
Proof.
  unfold calib_body, bind, time_time, stream_read, ret.
  destruct (Qltb (w_clock w) ce) eqn:E.
  - apply Qltb_lt in E. right.
    destruct (rd_data (env_mic env (w_pos w))) as [d|] eqn:Ed.
    + right. exists d. auto.
    + left. auto.
  - apply Qltb_ge in E. left. auto.
Qed.

Lemma hold_body_cases env dl (fr : list bytes) w :
  (dl <= w_clock w /\ hold_body env dl fr w = (Ok (inr fr), w))
  \/ (w_clock w < dl
      /\ rd_data (env_mic env (w_pos w)) = None
      /\ hold_body env dl fr w = (Raise DeviceError, advance env w))
  \/ (exists d,
        w_clock w < dl
        /\ rd_data (env_mic env (w_pos w)) = Some d
        /\ hold_body env dl fr w = (Ok (inl (fr ++ [d])), advance env w)).
Proof.
  unfold hold_body, bind, time_time, stream_read, ret.
  destruct (Qle_bool dl (w_clock w)) eqn:E.
  - apply Qle_bool_iff in E. left. auto.
  - apply Qle_bool_gt in E. right.
    destruct (rd_data (env_mic env (w_pos w))) as [d|] eqn:Ed.
    + right. exists d. auto.
    + left. auto.
Qed.

Lemma main_body_cases env self p st et dl (s : Vad) w :
  let w1 := advance env w in
  (dl <= w_clock w
   /\ main_body env self p st et dl s w = (Ok (inr (frames s)), w))
  \/ (w_clock w < dl
      /\ rd_data (env_mic env (w_pos w)) = None
      /\ main_body env self p st et dl s w = (Raise DeviceError, w1))
  \/ (exists d s',
        w_clock w < dl
        /\ rd_data (env_mic env (w_pos w)) = Some d
        /\ speaking s = false /\ speaking s' = true
        /\ frames s' = frames s ++ [d]
        /\ start_time s' = Some (w_clock w1)
        /\ main_body env self p st et dl s w
           = (Ok (inl s'), logged (SpeechStart (w_clock w1)) w1))
  \/ (exists d s',
        w_clock w < dl
        /\ rd_data (env_mic env (w_pos w)) = Some d
        /\ speaking s' = speaking s
        /\ start_time s' = start_time s
        /\ frames s' = frames s ++ [d]
        /\ main_body env self p st et dl s w = (Ok (inl s'), w1))
  \/ (exists d t0,
        w_clock w < dl
        /\ rd_data (env_mic env (w_pos w)) = Some d
        /\ speaking s = true
        /\ start_time s = Some t0
        /\ min_speech_after_start p <= w_clock w1 - t0
        /\ main_body env self p st et dl s w
           = hold_phase env self p dl (frames s ++ [d])
               (logged (SpeechEnd (w_clock w1)) w1)).
Proof.
  intros w1.
  unfold main_body, bind, time_time, stream_read, ret, observe, modify.
  destruct (Qle_bool dl (w_clock w)) eqn:E.
  { apply Qle_bool_iff in E. left. auto. }
  apply Qle_bool_gt in E. right.
  destruct (rd_data (env_mic env (w_pos w))) as [d|] eqn:Ed.
  2:{ left. auto. }
  right. fold w1.
  destruct (speaking s) eqn:Esp; cbn [negb]; cbv beta iota.
  - (* speaking *)
    right.
    set (uc := if Qltb (inject_Z (env_rms env d (width self))) et
               then (under_count s + 1)%Z else 0%Z).
    destruct (start_time s) as [t0|] eqn:Est.
    + destruct (truthy_time (Some t0)
                && Qle_bool (min_speech_after_start p) (w_clock w1 - t0)
                && (end_frames p <=? uc)%Z) eqn:Eend.
      * right. exists d, t0.
        apply andb_prop in Eend. destruct Eend as [Eend _].
        apply andb_prop in Eend. destruct Eend as [_ Eend].
        apply Qle_bool_iff in Eend.
        repeat split; auto.
      * left. eexists d, _; (repeat apply conj; [.. | reflexivity]); simpl; congruence.
    + left. eexists d, _; (repeat apply conj; [.. | reflexivity]); simpl; congruence.
  - (* not speaking yet *)
    destruct (Qle_bool st (inject_Z (env_rms env d (width self)))).
    + destruct (start_frames p <=? over_count s + 1)%Z.
      * left. eexists d, _; (repeat apply conj; [.. | reflexivity]); simpl; congruence.
      * right. left. eexists d, _; (repeat apply conj; [.. | reflexivity]); simpl; congruence.
    + right. left. eexists d, _; (repeat apply conj; [.. | reflexivity]); simpl; congruence.
Qed.

(** *** Chunks delivered by the device *)

Lemma delivered_S env from n :
  delivered env from (S n)
  = delivered env from n
    ++ match rd_data (env_mic env (from + n)) with
       | Some d => [d]
       | None => []
       end.
Proof.
  unfold delivered. rewrite seq_S, flat_map_app. simpl.
  rewrite app_nil_r. reflexivity.
Qed.

Lemma all_ok_nil env from : all_ok env from from.
Proof. intros i Hi. lia. Qed.

Lemma all_ok_S env from upto d :
  (from <= upto)%nat ->
  all_ok env from upto ->
  rd_data (env_mic env upto) = Some d ->
  all_ok env from (S upto).
Proof.
  intros Hle Hok Hd i Hi.
  destruct (Nat.eq_dec i upto) as [-> | Hne].
  - rewrite Hd. discriminate.
  - apply Hok. lia.
Qed.

Lemma delivered_snoc env from upto d :
  (from <= upto)%nat ->
  rd_data (env_mic env upto) = Some d ->
  delivered env from (S upto - from) = delivered env from (upto - from) ++ [d].
Proof.
  intros Hle Hd.
  replace (S upto - from)%nat with (S (upto - from)) by lia.
  rewrite delivered_S.
  replace (from + (upto - from))%nat with upto by lia.
  rewrite Hd. reflexivity.
Qed.

Lemma delivered_length env from upto :
  (from <= upto)%nat ->
  all_ok env from upto ->
  length (delivered env from (upto - from)) = (upto - from)%nat.
Proof.
  induction upto as [|u IH]; intros Hle Hok.
  - reflexivity.
  - destruct (Nat.eq_dec from (S u)) as [-> | Hne].
    + rewrite Nat.sub_diag. reflexivity.
    + assert (Hu : (from <= u)%nat) by lia.
      destruct (rd_data (env_mic env u)) as [d|] eqn:Hd.
      * rewrite (delivered_snoc env from u d Hu Hd), length_app, IH.
        -- change (length [d]) with 1%nat. lia.
        -- exact Hu.
        -- intros i Hi. apply Hok. lia.
      * exfalso. apply (Hok u); [lia | exact Hd].
Qed.

(** *** Reads, frames and failures *)

Lemma hold_loop_reads env dl p0 fr0 n fr w :
  (p0 <= w_pos w)%nat ->
  all_ok env p0 (w_pos w) ->
  fr = fr0 ++ delivered env p0 (w_pos w - p0) ->
  let r := for_range (hold_body env dl) n fr w in
  (p0 <= w_pos (snd r))%nat
  /\ match fst r with
     | Ok fr' =>
         all_ok env p0 (w_pos (snd r))
         /\ fr' = fr0 ++ delivered env p0 (w_pos (snd r) - p0)
     | Raise e => e = DeviceError /\ (p0 < w_pos (snd r))%nat
     | Diverge => False
     end.
Proof.
  intros Hle Hok Hfr.
  apply (for_range_inv (hold_body env dl)
           (fun fr w => (p0 <= w_pos w)%nat /\ all_ok env p0 (w_pos w)
                        /\ fr = fr0 ++ delivered env p0 (w_pos w - p0))
           (fun o w' =>
              (p0 <= w_pos w')%nat
              /\ match o with
                 | Ok fr' =>
                     all_ok env p0 (w_pos w')
                     /\ fr' = fr0 ++ delivered env p0 (w_pos w' - p0)
                 | Raise e => e = DeviceError /\ (p0 < w_pos w')%nat
                 | Diverge => False
                 end)); auto.
  clear. intros fr w (Hle & Hok & Hfr).
  destruct (hold_body_cases env dl fr w)
    as [(_ & ->) | [(_ & Hd & ->) | (d & _ & Hd & ->)]];
    cbv beta iota; change (w_pos (advance env w)) with (S (w_pos w)).
  - auto.
  - split; [lia | split; [reflexivity | lia]].
  - split; [lia|]. split.
    + apply all_ok_S with d; auto.
    + rewrite (delivered_snoc env p0 (w_pos w) d Hle Hd), Hfr.
      symmetry. apply app_assoc.
Qed.

Lemma hold_phase_reads env self p dl p0 fr0 fr w :
  (p0 <= w_pos w)%nat ->
  all_ok env p0 (w_pos w) ->
  fr = fr0 ++ delivered env p0 (w_pos w - p0) ->
  match hold_phase env self p dl fr w with
  | (Ok (inl _), _) => False
  | (Ok (inr fr'), w') => reads_post env self p0 fr0 (Ok fr') w'
  | (Raise e, w') => reads_post env self p0 fr0 (Raise e) w'
  | (Diverge, _) => False
  end.
Proof.
  intros Hle Hok Hfr.
  unfold hold_phase, hold_blocks, floordiv, bind.
  destruct (block_size self =? 0)%Z eqn:Eb.
  - unfold raise. apply Z.eqb_eq in Eb. unfold reads_post. auto.
  - unfold ret.
    set (n := Z.to_nat _).
    pose proof (hold_loop_reads env dl p0 fr0 n fr w Hle Hok Hfr) as H.
    cbv zeta in H.
    destruct (for_range (hold_body env dl) n fr w) as [[fr' | e |] w'];
      simpl in H; unfold reads_post.
    + exact H.
    + destruct H as (H1 & -> & H2). auto.
    + destruct H as [_ []].
Qed.


Lemma main_body_reads env self p st et dl p0 fr0 s w :
  reads_inv env p0 fr0 s w ->
  match main_body env self p st et dl s w with
  | (Ok (inl s'), w') => reads_inv env p0 fr0 s' w' /\ (p0 < w_pos w')%nat
  | (Ok (inr fr), w') => reads_post env self p0 fr0 (Ok fr) w'
  | (Raise e, w') => reads_post env self p0 fr0 (Raise e) w'
  | (Diverge, _) => False
  end.
Proof.
  intros (Hle & Hok & Hfr).
  assert (Hstep : forall d s',
            rd_data (env_mic env (w_pos w)) = Some d ->
            frames s' = frames s ++ [d] ->
            (p0 <= S (w_pos w))%nat
            /\ all_ok env p0 (S (w_pos w))
            /\ frames s' = fr0 ++ delivered env p0 (S (w_pos w) - p0)).
  { intros d s' Hd Hs'. split; [lia|]. split.
    - apply all_ok_S with d; auto.
    - rewrite (delivered_snoc env p0 (w_pos w) d Hle Hd), Hs', Hfr.
      symmetry. apply app_assoc. }
  destruct (main_body_cases env self p st et dl s w)
    as [(_ & ->) | [(_ & Hd & ->)
       | [(d & s' & _ & Hd & _ & _ & Hs' & _ & ->)
       | [(d & s' & _ & Hd & _ & _ & Hs' & ->)
       | (d & t0 & _ & Hd & _ & _ & _ & ->)]]]].
  - unfold reads_post. auto.
  - unfold reads_post. change (w_pos (advance env w)) with (S (w_pos w)).
    split; lia.
  - unfold reads_inv.
    change (w_pos (logged _ (advance env w))) with (S (w_pos w)).
    split; [apply (Hstep d s' Hd Hs') | lia].
  - unfold reads_inv. change (w_pos (advance env w)) with (S (w_pos w)).
    split; [apply (Hstep d s' Hd Hs') | lia].
  - set (w2 := logged (SpeechEnd (w_clock (advance env w))) (advance env w)).
    pose proof (hold_phase_reads env self p dl p0 fr0 (frames s ++ [d]) w2)
      as H.
    change (w_pos w2) with (S (w_pos w)) in H.
    assert (H1 : (p0 <= S (w_pos w))%nat) by lia.
    assert (H2 : all_ok env p0 (S (w_pos w)))
      by (apply all_ok_S with d; auto).
    assert (H3 : frames s ++ [d]
                 = fr0 ++ delivered env p0 (S (w_pos w) - p0)).
    { rewrite (delivered_snoc env p0 (w_pos w) d Hle Hd), Hfr.
      symmetry. apply app_assoc. }
    specialize (H H1 H2 H3).
    destruct (hold_phase env self p dl (frames s ++ [d]) w2)
      as [[[s' | fr] | e |] w']; auto; contradiction.
Qed.

Lemma main_loop_reads env self p st et dl n s w :
  let r := loop (main_body env self p st et dl) (S n) s w in
  reads_post env self (w_pos w) (frames s) (fst r) (snd r).
Proof.
  apply (loop_inv_S (main_body env self p st et dl)
           (reads_inv env (w_pos w) (frames s))
           (fun s' w' => reads_inv env (w_pos w) (frames s) s' w'
                         /\ (w_pos w < w_pos w')%nat)
           (reads_post env self (w_pos w) (frames s))).
  - intros s0 w0 H0.
    pose proof (main_body_reads env self p st et dl _ _ s0 w0 H0) as H.
    destruct (main_body env self p st et dl s0 w0)
      as [[[s' | fr] | e |] w']; auto. contradiction.
  - intros s0 w0 [H0 _]. exact H0.
  - intros s0 w0 [(H1 & H2 & _) H3]. unfold reads_post. auto.
  - unfold reads_inv. rewrite Nat.sub_diag. simpl. rewrite app_nil_r.
    split; [lia | split; [apply all_ok_nil | reflexivity]].
Qed.

Lemma detection_phase_reads env self p n cal w :
  let r := detection_phase env self p (S n) cal w in
  reads_post env self (w_pos w) (snd cal) (fst r) (snd r).
Proof.
  unfold detection_phase, bind, time_time.
  apply (main_loop_reads env self p _ _ _ n
           {| frames := snd cal; speaking := false; over_count := 0;
              under_count := 0; start_time := None |} w).
Qed.

Lemma calibrate_reads env self m ce n w :
  let r := calibrate env self m ce (S n) w in
  calib_post env self (w_pos w) m (fst r) (snd r).
Proof.
  set (p0 := w_pos w).
  set (I := fun (s : Calib) (w' : World) =>
              (p0 <= w_pos w')%nat
              /\ all_ok env p0 (w_pos w')
              /\ snd s = lastn m (delivered env p0 (w_pos w' - p0))).
  apply (loop_inv_S (calib_body env self m ce) I
           (fun s w' => I s w' /\ (p0 < w_pos w')%nat)
           (calib_post env self p0 m)).
  - intros s0 w0 (Hle & Hok & Hring).
    destruct (calib_body_cases env self m ce s0 w0)
      as [(_ & ->) | [(_ & Hd & ->) | (d & _ & Hd & ->)]];
      cbv beta iota; unfold calib_post, I;
      change (w_pos (advance env w0)) with (S (w_pos w0)).
    + auto.
    + split; lia.
    + split; [|lia]. split; [lia|]. split.
      * apply all_ok_S with d; auto.
      * cbn [snd]. rewrite Hring.
        rewrite (delivered_snoc env p0 (w_pos w0) d Hle Hd).
        unfold lastn. apply deque_append_skipn.
  - intros s0 w0 [H0 _]. exact H0.
  - intros s0 w0 [(H1 & H2 & _) H3]. unfold calib_post. auto.
  - unfold I, p0. rewrite Nat.sub_diag.
    split; [lia | split; [apply all_ok_nil | reflexivity]].
Qed.

Lemma calibration_phase_reads env self p n w :
  let r := calibration_phase env self p (S n) w in
  calib_post env self (w_pos w) (pre_roll_capacity self p) (fst r) (snd r).
Proof.
  unfold calibration_phase, pre_roll_blocks, floordiv, bind, time_time.
  destruct (block_size self =? 0)%Z eqn:Eb.
  - apply Z.eqb_eq in Eb. unfold raise, calib_post. simpl.
    split; [lia | split; [apply all_ok_nil | exact Eb]].
  - unfold ret. apply calibrate_reads.
Qed.

(** *** World invariants *)

Section WorldInvariants.

Variable env : Env.
Variable Inv : World -> Prop.

(** [limit] is the calibration end or the hard deadline: a chunk is
    only read while the clock is before it. *)
Variable limit : Q.
Hypothesis Inv_advance :
  forall w, Inv w -> w_clock w < limit -> Inv (advance env w).

Lemma calibrate_winv self m fuel w :
  Inv w -> Inv (snd (calibrate env self m limit fuel w)).
Proof.
  intros HI. unfold calibrate.
  apply (loop_inv (calib_body env self m limit)
           (fun _ w' => Inv w') (fun _ w' => Inv w')); auto.
  intros s0 w0 H0.
  destruct (calib_body_cases env self m limit s0 w0)
    as [(_ & ->) | [(Hc & _ & ->) | (d & Hc & _ & ->)]]; auto.
Qed.

Lemma hold_phase_winv self p fr w :
  Inv w -> Inv (snd (hold_phase env self p limit fr w)).
Proof.
  intros HI. unfold hold_phase, hold_blocks, floordiv, bind.
  destruct (block_size self =? 0)%Z; [exact HI|].
  unfold ret. set (n := Z.to_nat _).
  assert (H : Inv (snd (for_range (hold_body env limit) n fr w))).
  { apply (for_range_inv (hold_body env limit)
             (fun _ w' => Inv w') (fun _ w' => Inv w')); auto.
    intros s0 w0 H0.
    destruct (hold_body_cases env limit s0 w0)
      as [(_ & ->) | [(Hc & _ & ->) | (d & Hc & _ & ->)]]; auto. }
  destruct (for_range (hold_body env limit) n fr w) as [[fr' | e |] w'];
    exact H.
Qed.

Hypothesis Inv_logged : forall e w, Inv w -> Inv (logged e w).

Lemma main_loop_winv self p st et fuel s w :
  Inv w -> Inv (snd (loop (main_body env self p st et limit) fuel s w)).
Proof.
  intros HI.
  apply (loop_inv (main_body env self p st et limit)
           (fun _ w' => Inv w') (fun _ w' => Inv w')); auto.
  intros s0 w0 H0.
  destruct (main_body_cases env self p st et limit s0 w0)
    as [(_ & ->) | [(Hc & _ & ->)
       | [(d & s' & Hc & _ & _ & _ & _ & _ & ->)
       | [(d & s' & Hc & _ & _ & _ & _ & ->)
       | (d & t0 & Hc & _ & _ & _ & _ & Heq)]]]]; auto.
  pose proof (hold_phase_winv self p (frames s0 ++ [d])
                (logged (SpeechEnd (w_clock (advance env w0)))
                        (advance env w0))) as H.
  rewrite <- Heq in H.
  destruct (main_body env self p st et limit s0 w0)
    as [[[s' | fr] | e |] w']; apply H; auto.
Qed.

End WorldInvariants.

(** [_ensure_stream] reads at most one chunk and logs nothing. *)
Lemma ensure_stream_cases env self w :
  let opened := {| w_clock := w_clock w; w_pos := w_pos w; w_pa := w_pa w;
                   w_stream := true; w_log := w_log w |} in
  ensure_stream env self w = (Ok tt, w)
  \/ (exists e, ensure_stream env self w = (Raise e, w))
  \/ ensure_stream env self w = (Ok tt, advance env opened).
Proof.
  cbv zeta. destruct w as [c ps pa strm lg].
  unfold ensure_stream, bind, get, set_stream, modify, try_pass,
    stream_read, raise, ret, advance. simpl.
  destruct strm; [left; reflexivity|].
  destruct pa; simpl; [|right; left; eexists; reflexivity].
  destruct ((1 <=? width self)%Z && (width self <=? 4)%Z); simpl;
    [|right; left; eexists; reflexivity].
  destruct (env_open env); simpl; [|right; left; eexists; reflexivity].
  right. right.
  destruct (rd_data (env_mic env ps)); reflexivity.
Qed.


(** *** The observation log *)

Lemma log_inv_post m L0 s w : log_inv L0 s w -> log_post m L0 w.
Proof.
  intros [(_ & H) | (_ & t & _ & H)].
  - exists []. rewrite app_nil_r. split; [exact H | left; reflexivity].
  - exists [SpeechStart t]. split; [exact H|]. right. left. eauto.
Qed.

Lemma main_loop_log env self p st et dl fuel L0 s w :
  log_inv L0 s w ->
  log_post (min_speech_after_start p) L0
    (snd (loop (main_body env self p st et dl) fuel s w)).
Proof.
  intros HI.
  apply (loop_inv (main_body env self p st et dl) (log_inv L0)
           (fun _ w' => log_post (min_speech_after_start p) L0 w'));
    [| intros; eapply log_inv_post; eassumption | exact HI].
  clear. intros s w HI.
  destruct (main_body_cases env self p st et dl s w)
    as [(_ & ->) | [(_ & _ & ->)
       | [(d & s' & _ & _ & Hs & Hs' & _ & Ht & ->)
       | [(d & s' & _ & _ & Hs' & Ht & _ & ->)
       | (d & t0 & _ & _ & Hs & Ht & Hmin & Heq)]]]].
  - eapply log_inv_post; eassumption.
  - apply log_inv_post with s. exact HI.
  - right. split; [exact Hs'|].
    exists (w_clock (advance env w)). split; [exact Ht|].
    destruct HI as [(_ & HL) | (Hsp & _)]; [|congruence].
    simpl. rewrite HL. reflexivity.
  - unfold log_inv. rewrite Hs', Ht. exact HI.
  - destruct HI as [(Hsp & _) | (_ & t & Ht' & HL)]; [congruence|].
    assert (t = t0) by congruence. subst t.
    set (w2 := logged (SpeechEnd (w_clock (advance env w))) (advance env w))
      in *.
    assert (Hlog : w_log (snd (hold_phase env self p dl (frames s ++ [d]) w2))
                   = L0 ++ [SpeechStart t0;
                            SpeechEnd (w_clock (advance env w))]).
    { apply (hold_phase_winv env
               (fun w' => w_log w' = L0 ++ [SpeechStart t0;
                            SpeechEnd (w_clock (advance env w))]) dl).
      - intros w' H _. exact H.
      - unfold w2. simpl. rewrite HL, <- app_assoc. reflexivity. }
    rewrite <- Heq in Hlog.
    assert (Hpost : log_post (min_speech_after_start p) L0
                      (snd (main_body env self p st et dl s w))).
    { eexists. split; [exact Hlog|]. right. right. eauto. }
    destruct (main_body env self p st et dl s w) as [[[s' | fr] | e |] w'];
      try exact Hpost.
    (* the termination sequence never asks for another round *)
    exfalso.
    pose proof (hold_phase_reads env self p dl (w_pos w2) (frames s ++ [d])
                  (frames s ++ [d]) w2 (le_n _) (all_ok_nil _ _)) as H.
    rewrite Nat.sub_diag in H. simpl in H. rewrite app_nil_r in H.
    specialize (H eq_refl). rewrite <- Heq in H. exact H.
Qed.

Lemma detection_phase_log env self p fuel cal w :
  log_post (min_speech_after_start p) (w_log w)
    (snd (detection_phase env self p fuel cal w)).
Proof.
  unfold detection_phase, bind, time_time.
  apply main_loop_log. left. split; reflexivity.
Qed.

Lemma calibration_phase_log env self p fuel w :
  w_log (snd (calibration_phase env self p fuel w)) = w_log w.
Proof.
  unfold calibration_phase, pre_roll_blocks, floordiv, bind, time_time.
  destruct (block_size self =? 0)%Z; [reflexivity|].
  unfold ret.
  apply (calibrate_winv env (fun w' => w_log w' = w_log w)
           (w_clock w + max2 0 (noise_calib_duration p))); auto.
Qed.

Lemma record_body_log env self p fuel w :
  log_post (min_speech_after_start p) (w_log w)
    (snd (record_body env self p fuel w)).
Proof.
  unfold record_body, bind.
  pose proof (calibration_phase_log env self p fuel w) as Hc.
  destruct (calibration_phase env self p fuel w) as [[cal | e |] w1];
    simpl in Hc.
  - rewrite <- Hc. apply detection_phase_log.
  - exists []. rewrite app_nil_r. split; [exact Hc | left; reflexivity].
  - exists []. rewrite app_nil_r. split; [exact Hc | left; reflexivity].
Qed.

Lemma ensure_stream_log env self w :
  w_log (snd (ensure_stream env self w)) = w_log w.
Proof.
  destruct (ensure_stream_cases env self w) as [-> | [[e ->] | ->]];
    reflexivity.
Qed.

Lemma record_until_silence_log env self p fuel w :
  log_post (min_speech_after_start p) (w_log w)
    (snd (record_until_silence env self p fuel w)).
Proof.
  unfold record_until_silence.
  destruct (env_has_pyaudio env); simpl.
  2:{ exists []. rewrite app_nil_r. split; [reflexivity | left; reflexivity]. }
  unfold bind.
  pose proof (ensure_stream_log env self w) as He.
  destruct (ensure_stream env self w) as [[[] | e |] w0]; simpl in He.
  - pose proof (record_body_log env self p fuel w0) as Hb.
    rewrite He in Hb.
    destruct (record_body env self p fuel w0) as [[fr | e |] w']; exact Hb.
  - exists []. rewrite app_nil_r. split; [exact He | left; reflexivity].
  - exists []. rewrite app_nil_r. split; [exact He | left; reflexivity].
Qed.

(** C2. Minimum speech enforcement: once [record_until_silence] has
    switched to speaking (at clock reading [t_start]), the termination
    sequence (post-silence hold and return) is entered at a clock
    reading [t_end] only if [t_end - t_start >= min_speech_after_start],
    whatever the frame stream and however early the count of quiet
    frames reached [end_frames]. *)
Theorem min_speech_enforced env self p fuel w evs t_end :
  w_log (snd (record_until_silence env self p fuel w)) = w_log w ++ evs ->
  In (SpeechEnd t_end) evs ->
  exists t_start,
    evs = [SpeechStart t_start; SpeechEnd t_end]
    /\ min_speech_after_start p <= t_end - t_start.
Proof.
  intros Hlog Hin.
  destruct (record_until_silence_log env self p fuel w)
    as (evs' & Hlog' & Hshape).
  rewrite Hlog in Hlog'. apply app_inv_head in Hlog'. subst evs'.
  destruct Hshape as [-> | [(t & ->) | (t & t' & -> & Hmin)]].
  - destruct Hin.
  - destruct Hin as [H | []]. discriminate.
  - destruct Hin as [H | [H | []]]; [discriminate|].
    injection H as <-. exists t. split; [reflexivity | exact Hmin].
Qed.


(** *** The clock *)

Lemma advance_clock env w :
  w_clock (advance env w) == w_clock w + rd_time (env_mic env (w_pos w)).
Proof. unfold advance. cbn [w_clock]. apply Qred_correct. Qed.

(** The termination sequence always leaves the loop. *)
Lemma hold_phase_breaks env self p dl fr w :
  match hold_phase env self p dl fr w with
  | (Ok (inl _), _) => False
  | (Diverge, _) => False
  | _ => True
  end.
Proof.
  pose proof (hold_phase_reads env self p dl (w_pos w) fr fr w
                (le_n _) (all_ok_nil _ _)) as H.
  rewrite Nat.sub_diag in H. simpl in H. rewrite app_nil_r in H.
  specialize (H eq_refl).
  destruct (hold_phase env self p dl fr w) as [[[s' | fr'] | e |] w'];
    auto.
Qed.

Section ReadTimes.

Variable env : Env.
Variables dmin dmax : Q.
Hypothesis read_time :
  forall i, dmin <= rd_time (env_mic env i) <= dmax.

Section UpperBound.

Hypothesis dmin_nonneg : 0 <= dmin.

Lemma dmax_nonneg : 0 <= dmax.
Proof. destruct (read_time 0%nat). lra. Qed.

Lemma advance_before limit B w :
  limit + dmax <= B -> w_clock w < limit ->
  w_clock (advance env w) <= B.
Proof.
  intros HB Hlt. rewrite advance_clock.
  destruct (read_time (w_pos w)). lra.
Qed.

Lemma calibration_phase_clock self p fuel w :
  w_clock (snd (calibration_phase env self p fuel w))
  <= w_clock w + max2 0 (noise_calib_duration p) + dmax.
Proof.
  pose proof dmax_nonneg as Hd.
  pose proof (max2_ub_l 0 (noise_calib_duration p)) as Hm.
  unfold calibration_phase, pre_roll_blocks, floordiv, bind, time_time.
  destruct (block_size self =? 0)%Z; [simpl; lra|].
  unfold ret.
  apply (calibrate_winv env
           (fun w' => w_clock w'
                      <= w_clock w + max2 0 (noise_calib_duration p)
                         + dmax)
           (w_clock w + max2 0 (noise_calib_duration p))).
  - intros w' _ Hlt. apply advance_before with (2 := Hlt). lra.
  - lra.
Qed.

Lemma detection_phase_clock self p fuel cal w :
  w_clock (snd (detection_phase env self p fuel cal w))
  <= w_clock w + max2 0 (max_duration p) + dmax.
Proof.
  pose proof dmax_nonneg as Hd.
  pose proof (max2_ub_l 0 (max_duration p)) as Hm.
  pose proof (max2_ub_r 0 (max_duration p)) as Hm'.
  unfold detection_phase, bind, time_time.
  apply (main_loop_winv env
           (fun w' => w_clock w'
                      <= w_clock w + max2 0 (max_duration p) + dmax)
           (w_clock w + max_duration p)).
  - intros w' _ Hlt. apply advance_before with (2 := Hlt). lra.
  - intros e w' H. exact H.
  - lra.
Qed.

Lemma ensure_stream_clock self w :
  w_clock (snd (ensure_stream env self w)) <= w_clock w + dmax.
Proof.
  pose proof dmax_nonneg as Hd.
  destruct (ensure_stream_cases env self w) as [-> | [[e ->] | ->]];
    simpl snd; try lra.
  rewrite advance_clock. simpl.
  destruct (read_time (w_pos w)). lra.
Qed.

Lemma record_until_silence_clock self p fuel w :
  w_clock (snd (record_until_silence env self p fuel w)) - w_clock w
  <= max2 0 (noise_calib_duration p) + max2 0 (max_duration p)
     + 3 * dmax.
Proof.
  pose proof dmax_nonneg as Hd.
  pose proof (max2_ub_l 0 (noise_calib_duration p)) as Hm.
  pose proof (max2_ub_l 0 (max_duration p)) as Hm'.
  unfold record_until_silence.
  destruct (env_has_pyaudio env); simpl; [|lra].
  unfold bind.
  pose proof (ensure_stream_clock self w) as He.
  destruct (ensure_stream env self w) as [[[] | e |] w0]; simpl in He;
    simpl snd; try lra.
  unfold record_body, bind.
  pose proof (calibration_phase_clock self p fuel w0) as Hc.
  destruct (calibration_phase env self p fuel w0) as [[cal | e |] w1];
    simpl in Hc; simpl snd; try lra.
  pose proof (detection_phase_clock self p fuel cal w1) as Hdt.
  destruct (detection_phase env self p fuel cal w1) as [[fr | e |] w'];
    simpl in Hdt; simpl snd; lra.
Qed.

End UpperBound.

Section LowerBound.

Hypothesis dmin_pos : 0 < dmin.

Lemma calibrate_terminates self m ce n w :
  ce - w_clock w <= inject_Z (Z.of_nat n) * dmin ->
  is_diverge (fst (calibrate env self m ce (S n) w)) = false.
Proof.
  intros Hmu. unfold calibrate.
  apply (loop_fuel (calib_body env self m ce)
           (fun w' => ce - w_clock w') dmin dmin_pos); [|exact Hmu].
  intros s0 w0.
  destruct (calib_body_cases env self m ce s0 w0)
    as [(_ & ->) | [(_ & _ & ->) | (d & Hlt & _ & ->)]]; auto.
  rewrite advance_clock. destruct (read_time (w_pos w0)).
  split; lra.
Qed.

Lemma main_loop_terminates self p st et dl n s w :
  dl - w_clock w <= inject_Z (Z.of_nat n) * dmin ->
  is_diverge (fst (loop (main_body env self p st et dl) (S n) s w))
  = false.
Proof.
  intros Hmu.
  apply (loop_fuel (main_body env self p st et dl)
           (fun w' => dl - w_clock w') dmin dmin_pos); [|exact Hmu].
  intros s0 w0.
  destruct (main_body_cases env self p st et dl s0 w0)
    as [(_ & ->) | [(_ & _ & ->)
       | [(d & s' & Hlt & _ & _ & _ & _ & _ & ->)
       | [(d & s' & Hlt & _ & _ & _ & _ & ->)
       | (d & t0 & _ & _ & _ & _ & _ & ->)]]]]; auto.
  - change (w_clock (logged _ (advance env w0)))
      with (w_clock (advance env w0)).
    rewrite advance_clock. destruct (read_time (w_pos w0)).
    split; lra.
  - rewrite advance_clock. destruct (read_time (w_pos w0)).
    split; lra.
  - pose proof (hold_phase_breaks env self p dl (frames s0 ++ [d])
                  (logged (SpeechEnd (w_clock (advance env w0)))
                          (advance env w0))) as H.
    destruct (hold_phase env self p dl (frames s0 ++ [d]) _)
      as [[[s' | fr'] | e |] w']; auto; contradiction.
Qed.

Lemma record_body_terminates self p n w :
  max2 0 (noise_calib_duration p) <= inject_Z (Z.of_nat n) * dmin ->
  max_duration p <= inject_Z (Z.of_nat n) * dmin ->
  is_diverge
    (fst ((fr <- record_body env self p (S n) ;; ret (join fr)) w))
  = false.
Proof.
  intros Hc Hm.
  unfold record_body, bind at 1 2.
  assert (Hcal : is_diverge
                   (fst (calibration_phase env self p (S n) w)) = false).
  { unfold calibration_phase, pre_roll_blocks, floordiv, bind, time_time.
    destruct (block_size self =? 0)%Z; [reflexivity|].
    unfold ret. apply calibrate_terminates.
    assert (Hr : w_clock w + max2 0 (noise_calib_duration p) - w_clock w
                 == max2 0 (noise_calib_duration p)) by ring.
    rewrite Hr. exact Hc. }
  destruct (calibration_phase env self p (S n) w) as [[cal | e |] w1];
    simpl in Hcal; [| reflexivity | discriminate].
  assert (Hdet : is_diverge
                   (fst (detection_phase env self p (S n) cal w1))
                 = false).
  { unfold detection_phase, bind, time_time.
    apply main_loop_terminates.
    assert (Hr : w_clock w1 + max_duration p - w_clock w1
                 == max_duration p) by ring.
    rewrite Hr. exact Hm. }
  destruct (detection_phase env self p (S n) cal w1)
    as [[fr | e |] w']; simpl in Hdet; [| | discriminate]; reflexivity.
Qed.

Lemma record_until_silence_terminates self p n w :
  max2 0 (noise_calib_duration p) <= inject_Z (Z.of_nat n) * dmin ->
  max_duration p <= inject_Z (Z.of_nat n) * dmin ->
  is_diverge (fst (record_until_silence env self p (S n) w)) = false.
Proof.
  intros Hc Hm.
  unfold record_until_silence.
  destruct (env_has_pyaudio env); simpl; [|reflexivity].
  unfold bind.
  destruct (ensure_stream_cases env self w) as [-> | [[e ->] | ->]];
    [| reflexivity |].
  - apply record_body_terminates; assumption.
  - apply record_body_terminates; assumption.
Qed.

End LowerBound.

End ReadTimes.

(** *** The whole call *)





Lemma lastn_one_snoc {A : Type} (l : list A) (x : A) :
  lastn 1 (l ++ [x]) = [x].
Proof.
  unfold lastn. rewrite length_app. simpl.
  replace (length l + 1 - 1)%nat with (length l) by lia.
  rewrite skipn_app, skipn_all, Nat.sub_diag. reflexivity.
Qed.


(** When the call returns, the stream was set up and both phases
    ended normally. *)
Lemma record_until_silence_ok env self p fuel w buf :
  fst (record_until_silence env self p fuel w) = Ok buf ->
  let w0 := snd (ensure_stream env self w) in
  let c := calibration_phase env self p fuel w0 in
  exists cal fr,
    env_has_pyaudio env = true
    /\ ensure_stream env self w = (Ok tt, w0)
    /\ c = (Ok cal, snd c)
    /\ detection_phase env self p fuel cal (snd c)
       = (Ok fr, snd (record_until_silence env self p fuel w))
    /\ buf = concat fr.
Proof.
  intros H. cbv zeta. unfold record_until_silence in H |- *.
  destruct (env_has_pyaudio env); simpl in H |- *; [|discriminate].
  unfold bind in H |- *.
  destruct (ensure_stream env self w) as [[[] | e |] w0] eqn:He;
    [| discriminate | discriminate].
  cbn [snd]. unfold record_body, bind in H |- *.
  destruct (calibration_phase env self p fuel w0) as [[cal | e |] w1] eqn:Hc;
    [| discriminate | discriminate].
  destruct (detection_phase env self p fuel cal w1) as [[fr | e |] w'] eqn:Hd;
    [| discriminate | discriminate].
  simpl in H. injection H as <-.
  exists cal, fr. cbn [fst snd]. rewrite Hd.
  repeat split. apply join_concat.
Qed.

(** The returned buffer is made of the chunks the ring held when
    calibration ended, followed by every chunk read after that (main
    loop and post-silence hold), in the order of the reads. *)
Lemma returned_buffer env self p fuel w buf :
  fst (record_until_silence env self p fuel w) = Ok buf ->
  let w0 := snd (ensure_stream env self w) in
  let w1 := snd (calibration_phase env self p fuel w0) in
  let w' := snd (record_until_silence env self p fuel w) in
  buf = concat (lastn (pre_roll_capacity self p)
                      (delivered env (w_pos w0) (w_pos w1 - w_pos w0))
                ++ delivered env (w_pos w1) (w_pos w' - w_pos w1)).
Proof.
  intros H.
  destruct (record_until_silence_ok env self p fuel w buf H)
    as (cal & fr & _ & _ & Hc & Hd & ->).
  cbv zeta. set (w0 := snd (ensure_stream env self w)) in *.
  destruct fuel as [|n].
  { (* without fuel the calibration loop cannot have ended *)
    exfalso. revert Hc.
    unfold calibration_phase, pre_roll_blocks, floordiv, bind, time_time.
    destruct (block_size self =? 0)%Z; simpl; discriminate. }
  pose proof (calibration_phase_reads env self p n w0) as Hcr.
  cbv zeta in Hcr. rewrite Hc in Hcr. cbn [fst snd] in Hcr.
  destruct Hcr as (_ & _ & Hring).
  pose proof (detection_phase_reads env self p n cal
                (snd (calibration_phase env self p (S n) w0))) as Hdr.
  cbv zeta in Hdr. rewrite Hd in Hdr. cbn [fst snd] in Hdr.
  destruct Hdr as (_ & _ & Hfr).
  rewrite Hfr, Hring. reflexivity.
Qed.

(** C5. Pre-roll inclusion: when [record_until_silence] returns, the
    chunks read during calibration -- in the order in which they were
    read, and limited to the last [pre_roll_capacity] of them, the
    capacity derived from [pre_roll_ms] -- are a prefix of the returned
    buffer. *)
Theorem preroll_prefix env self p fuel w buf :
  fst (record_until_silence env self p fuel w) = Ok buf ->
  let w0 := snd (ensure_stream env self w) in
  let w1 := snd (calibration_phase env self p fuel w0) in
  exists rest,
    buf = concat (lastn (pre_roll_capacity self p)
                        (delivered env (w_pos w0) (w_pos w1 - w_pos w0)))
          ++ rest.
Proof.
  intros H. cbv zeta.
  pose proof (returned_buffer env self p fuel w buf H) as E.
  cbv zeta in E. rewrite concat_app in E.
  eexists. exact E.
Qed.

(** C10. The capacity of the pre-roll ring is [max(1, pre_roll_bytes //
    block_size)], hence at least one chunk; with [pre_roll_ms = 0] it is
    exactly one, and when calibration read at least one chunk the last
    of them starts the returned buffer. *)
Theorem preroll_capacity_at_least_one env self p fuel w :
  (forall b wa wb,
     pre_roll_blocks self p wa = (Ok b, wb) ->
     (1 <= b)%Z /\ Z.to_nat b = pre_roll_capacity self p)
  /\ (1 <= pre_roll_capacity self p)%nat
  /\ (let w0 := snd (ensure_stream env self w) in
      let w1 := snd (calibration_phase env self p fuel w0) in
      forall buf,
        pre_roll_ms p = 0%Z ->
        (w_pos w0 < w_pos w1)%nat ->
        fst (record_until_silence env self p fuel w) = Ok buf ->
        exists d rest,
          rd_data (env_mic env (w_pos w1 - 1)) = Some d
          /\ buf = d ++ rest).
Proof.
  split; [|split].
  - intros b wa wb. unfold pre_roll_blocks, floordiv, bind.
    destruct (block_size self =? 0)%Z; [discriminate|].
    unfold ret. intros H. injection H as <- _.
    split; [lia | reflexivity].
  - unfold pre_roll_capacity. lia.
  - cbv zeta. intros buf Hms Hlt H.
    destruct (preroll_prefix env self p fuel w buf H) as (rest & ->).
    destruct (record_until_silence_ok env self p fuel w _ H)
      as (cal & fr & _ & _ & Hc & _ & _).
    set (w0 := snd (ensure_stream env self w)) in *.
    set (w1 := snd (calibration_phase env self p fuel w0)) in *.
    assert (Hcap : pre_roll_capacity self p = 1%nat).
    { unfold pre_roll_capacity, pre_roll_bytes. rewrite Hms, Z.mul_0_r.
      change (int_of_float (inject_Z 0 / 1000)) with 0%Z.
      rewrite Z.mul_0_l, Zdiv_0_l. reflexivity. }
    rewrite Hcap.
    destruct fuel as [|n].
    { exfalso. unfold w1, w0 in Hlt. revert Hlt.
      unfold calibration_phase, pre_roll_blocks, floordiv, bind, time_time.
      destruct (block_size self =? 0)%Z; simpl; lia. }
    pose proof (calibration_phase_reads env self p n w0) as Hcr.
    cbv zeta in Hcr. rewrite Hc in Hcr. cbn [fst snd] in Hcr.
    fold w1 in Hcr. destruct Hcr as (Hle & Hok & _).
    destruct (rd_data (env_mic env (w_pos w1 - 1))) as [d|] eqn:Hd.
    2:{ exfalso. apply (Hok (w_pos w1 - 1)%nat); [lia | exact Hd]. }
    exists d.
    assert (Hdel : delivered env (w_pos w0) (w_pos w1 - w_pos w0)
                   = delivered env (w_pos w0) (w_pos w1 - 1 - w_pos w0) ++ [d]).
    { replace (w_pos w1 - w_pos w0)%nat
        with (S (w_pos w1 - 1) - w_pos w0)%nat by lia.
      apply delivered_snoc; [lia | exact Hd]. }
    rewrite Hdel, lastn_one_snoc. simpl. rewrite app_nil_r.
    eexists. split; reflexivity.
Qed.

End RecorderFacts.

(** ** The claims about the recorder, and their instances *)

Module RecorderClaims.

Import Py Eff Recorder Scenario ReadFailures PyFacts EffFacts RecorderFacts.

(** *** Thresholds *)

(** The noise floor computed from RMS values (which are never negative)
    is never negative. *)
Lemma noise_floor_nonneg (noise_vals : list Z) :
  Forall (fun x => (0 <= x)%Z) noise_vals -> 0 <= noise_floor noise_vals.
Proof.
  intros H. destruct noise_vals as [|v vs].
  - unfold noise_floor. lra.
  - unfold noise_floor.
    apply Qle_shift_div_l.
    + change 0 with (inject_Z 0). rewrite <- Zlt_Qlt. lia.
    + rewrite Qmult_0_l. change 0 with (inject_Z 0). rewrite <- Zle_Qle.
      unfold sum. apply sum_from_nonneg; [exact H | lia].
Qed.

(** C1. Hysteresis invariant: for every noise floor >= 0 and every
    threshold_boost >= 0 the thresholds derived in
    [record_until_silence] satisfy start_threshold >= end_threshold. *)
Theorem hysteresis_invariant (nf boost : Q) :
  0 <= nf -> 0 <= boost ->
  end_threshold nf boost <= start_threshold nf boost.
Proof.
  intros Hnf Hb.
  assert (Hp : 0 <= nf * boost) by (apply Qmult_le_0_compat; assumption).
  unfold end_threshold, start_threshold.
  apply max2_lub.
  - apply Qle_trans with 150; [lra | apply max2_ub_l].
  - apply Qle_trans with (nf * boost); [lra | apply max2_ub_r].
Qed.

Lemma hysteresis_invariant_witness :
  0 <= 50 /\ 0 <= 2 /\ end_threshold 50 2 <= start_threshold 50 2.
Proof.
  assert (H1 : 0 <= 50) by lra.
  assert (H2 : 0 <= 2) by lra.
  exact (conj H1 (conj H2 (hysteresis_invariant 50 2 H1 H2))).
Defined.

(** The ordering does not depend on exact arithmetic: it survives any
    rounding of the products that is monotone and leaves the boost, a
    floating-point number already, unchanged. *)
Section FloatRounding.

Variable rnd : Q -> Q.
Variable k : Q.
Hypothesis rnd_mono : forall x y, x <= y -> rnd x <= rnd y.
Hypothesis k_range : 0 <= k <= 1.

Lemma hysteresis_under_rounding (nf boost : Q) :
  0 <= nf -> 0 <= boost -> rnd boost == boost ->
  end_threshold_fl rnd k nf boost <= start_threshold_fl rnd nf boost.
Proof.
  intros Hnf Hb Hrep.
  unfold end_threshold_fl, start_threshold_fl.
  assert (Hk : rnd (boost * k) <= boost).
  { rewrite <- Hrep at 2. apply rnd_mono.
    destruct k_range as [Hk0 Hk1].
    assert (Hbk : boost * k <= boost * 1).
    { rewrite !(Qmult_comm boost). apply Qmult_le_compat_r; assumption. }
    lra. }
  assert (Hprod : nf * rnd (boost * k) <= nf * boost).
  { rewrite !(Qmult_comm nf). apply Qmult_le_compat_r; assumption. }
  apply max2_lub.
  - apply Qle_trans with 150; [lra | apply max2_ub_l].
  - apply Qle_trans with (rnd (nf * boost));
      [apply rnd_mono; exact Hprod | apply max2_ub_r].
Qed.

End FloatRounding.

(** *** The deadline *)

Lemma rounds_le (a b : nat) (d x : Q) :
  0 < d -> (a <= b)%nat ->
  x <= inject_Z (Z.of_nat a) * d -> x <= inject_Z (Z.of_nat b) * d.
Proof.
  intros Hd Hab Hx.
  apply Qle_trans with (inject_Z (Z.of_nat a) * d); [exact Hx|].
  apply Qmult_le_compat_r; [|lra].
  rewrite <- Zle_Qle. lia.
Qed.

(** C3, as the code has it. The deadline is armed after calibration and
    a newly opened stream is primed with one read, so a call is over
    within max(0, noise_calib_duration) + max(0, max_duration) + three
    chunk read times of being made, whatever its parameters (the
    post-silence hold is cut by the same deadline); and it does return or
    raise: when every read takes at least [dmin > 0], the loops end. *)
Theorem deadline_bound env self p dmin dmax fuel w :
  0 < dmin ->
  (forall i, dmin <= rd_time (env_mic env i) <= dmax) ->
  (enough_fuel p dmin <= fuel)%nat ->
  let r := record_until_silence env self p fuel w in
  is_diverge (fst r) = false
  /\ w_clock (snd r) - w_clock w
     <= max2 0 (noise_calib_duration p) + max2 0 (max_duration p) + 3 * dmax.
Proof.
  intros Hd Hrt Hfuel. cbv zeta. split.
  - unfold enough_fuel in Hfuel.
    destruct fuel as [|n]; [lia|].
    apply (record_until_silence_terminates env dmin dmax Hrt Hd).
    + apply rounds_le
        with (a := rounds_for (max2 0 (noise_calib_duration p)) dmin);
        [exact Hd | lia | apply rounds_for_covers; exact Hd].
    + apply rounds_le with (a := rounds_for (max_duration p) dmin);
        [exact Hd | lia | apply rounds_for_covers; exact Hd].
  - apply (record_until_silence_clock env dmin dmax Hrt). lra.
Qed.

Lemma deadline_bound_witness :
  is_diverge (fst (record_until_silence quiet_env config_recorder
                     Assistant.primary_params 1700 (world_at 1000))) = false
  /\ w_clock (snd (record_until_silence quiet_env config_recorder
                     Assistant.primary_params 1700 (world_at 1000)))
     - w_clock (world_at 1000)
     <= max2 0 (noise_calib_duration Assistant.primary_params)
        + max2 0 (max_duration Assistant.primary_params) + 3 * chunk_time.
Proof.
  assert (Hd : 0 < chunk_time) by reflexivity.
  assert (Hrt : forall i, chunk_time <= rd_time (env_mic quiet_env i)
                          <= chunk_time)
    by (intros i; split; apply Qle_refl).
  assert (Hfuel : (enough_fuel Assistant.primary_params chunk_time <=? 1700)%nat
                  = true)
    by (vm_compute; reflexivity).
  exact (deadline_bound quiet_env config_recorder Assistant.primary_params
           chunk_time chunk_time 1700 (world_at 1000) Hd Hrt
           (proj1 (Nat.leb_le _ _) Hfuel)).
Defined.

(** The primary capture of [main_thread] in a quiet room: it returns
    25.808 s after the call, later than max_duration + post_silence_hold
    + one chunk read time = 25.366 s. *)
Lemma hard_deadline_counterexample :
  is_ok (fst (record_until_silence quiet_env config_recorder
          Assistant.primary_params 1700 (world_at 1000))) = true
  /\ ~ (w_clock (snd (record_until_silence quiet_env config_recorder
          Assistant.primary_params 1700 (world_at 1000))) - 1000
        <= max_duration Assistant.primary_params
           + post_silence_hold Assistant.primary_params + chunk_time).
Proof.
  split.
  - vm_compute. reflexivity.
  - intro H. apply Qle_bool_iff in H. vm_compute in H. discriminate.
Qed.


Lemma returned_ok (r : Outcome bytes * World) :
  is_ok (fst r) = true -> fst r = Ok (returned r).
Proof.
  unfold returned. destruct r as [o w]. cbn [fst].
  destruct o; simpl; intros H;
    [reflexivity | discriminate | discriminate].
Qed.

Lemma min_speech_enforced_witness :
  exists t_start,
    [SpeechStart (125006 # 125); SpeechEnd (125232 # 125)]
    = [SpeechStart t_start; SpeechEnd (125232 # 125)]
    /\ min_speech_after_start early_drop_params <= (125232 # 125) - t_start.
Proof.
  assert (H : w_log (snd (record_until_silence early_drop_env config_recorder
                            early_drop_params 300 (world_at 1000)))
              = w_log (world_at 1000)
                ++ [SpeechStart (125006 # 125); SpeechEnd (125232 # 125)])
    by (vm_compute; reflexivity).
  exact (min_speech_enforced early_drop_env config_recorder
           early_drop_params 300 (world_at 1000) _ _ H
           (or_intror (or_introl eq_refl))).
Defined.

(** In the run of the witness the count of quiet chunks reaches
    [end_frames = 15] after 0.24 s of speech, and the end is only
    observed 1.808 s after the start. *)
Example early_drop_times :
  w_log (snd (record_until_silence early_drop_env config_recorder
                early_drop_params 300 (world_at 1000)))
  = [SpeechStart (125006 # 125); SpeechEnd (125232 # 125)]
  /\ (125232 # 125) - (125006 # 125) == 1808 # 1000
  /\ inject_Z 15 * chunk_time == 24 # 100.
Proof.
  split; [vm_compute; reflexivity | split; reflexivity].
Qed.

(** *** The silent-room scenario *)












(** *** Instances of the general statements *)

Lemma preroll_prefix_witness :
  exists rest,
    returned (record_until_silence (silent_room_env 2) config_recorder
                (silent_room_params 2) 100 (world_at 1000))
    = concat (lastn (pre_roll_capacity config_recorder (silent_room_params 2))
                (delivered (silent_room_env 2)
                   (w_pos (snd (ensure_stream (silent_room_env 2)
                                  config_recorder (world_at 1000))))
                   (w_pos (snd (calibration_phase (silent_room_env 2)
                                  config_recorder (silent_room_params 2) 100
                                  (snd (ensure_stream (silent_room_env 2)
                                          config_recorder (world_at 1000)))))
                    - w_pos (snd (ensure_stream (silent_room_env 2)
                                    config_recorder (world_at 1000))))))
      ++ rest.
Proof.
  assert (H : is_ok (fst (record_until_silence (silent_room_env 2)
                            config_recorder (silent_room_params 2) 100
                            (world_at 1000))) = true)
    by (vm_compute; reflexivity).
  exact (preroll_prefix (silent_room_env 2) config_recorder
           (silent_room_params 2) 100 (world_at 1000) _ (returned_ok _ H)).
Defined.

Lemma preroll_capacity_witness :
  exists d rest,
    rd_data (env_mic quiet_env
               (w_pos (snd (calibration_phase quiet_env config_recorder
                              no_preroll_params 1700
                              (snd (ensure_stream quiet_env config_recorder
                                      (world_at 1000))))) - 1))
    = Some d
    /\ returned (record_until_silence quiet_env config_recorder
                  no_preroll_params 1700 (world_at 1000)) = d ++ rest.
Proof.
  assert (H : is_ok (fst (record_until_silence quiet_env config_recorder
                            no_preroll_params 1700 (world_at 1000))) = true)
    by (vm_compute; reflexivity).
  assert (Hlt : (w_pos (snd (ensure_stream quiet_env config_recorder
                               (world_at 1000)))
                 <? w_pos (snd (calibration_phase quiet_env config_recorder
                                  no_preroll_params 1700
                                  (snd (ensure_stream quiet_env
                                          config_recorder (world_at 1000))))))%nat
                = true)
    by (vm_compute; reflexivity).
  exact (proj2 (proj2 (preroll_capacity_at_least_one quiet_env config_recorder
                         no_preroll_params 1700 (world_at 1000)))
           _ eq_refl (proj1 (Nat.ltb_lt _ _) Hlt) (returned_ok _ H)).
Defined.

(** *** Failing reads and calls that read nothing *)














End RecorderClaims.

(** ** Facts about the assistant *)

Module AssistantFacts.

Import Py Eff Recorder Assistant Scenario.

Lemma continues_refl a : continues a a.
Proof.
  split; [reflexivity|]. exists []. rewrite app_nil_r. auto.
Qed.

Lemma continues_trans a b c : continues a b -> continues b c -> continues a c.
Proof.
  intros (H1 & e1 & A1 & F1) (H2 & e2 & A2 & F2).
  split; [congruence|].
  exists (e1 ++ e2). rewrite A2, A1, app_assoc. split; [reflexivity|].
  apply Forall_app. split; [exact F1|]. rewrite <- H1. exact F2.
Qed.

Ltac close_continues :=
  split; [reflexivity|]; cbn [acts allow_interruption];
  rewrite <- ?app_assoc;
  first [ exists []; rewrite app_nil_r; split; [reflexivity | constructor]
        | eexists; split;
          [reflexivity | repeat constructor; simpl; auto using andb_true_r ] ].

Ltac split_cases :=
  repeat match goal with
         | |- context [nonempty_string ?s] =>
             destruct (nonempty_string s) eqn:?; cbn
         | |- context [strip_nonempty ?s] =>
             destruct (strip_nonempty s) eqn:?; cbn
         | |- context [nonempty_bytes ?s] =>
             destruct (nonempty_bytes s) eqn:?; cbn
         | |- context [if ?b then _ else _] => destruct b; cbn
         | |- context [match ?o with Some _ => _ | None => _ end] =>
             destruct o; cbn
         end.

Ltac unfold_app :=
  unfold respond, try_except, bind, get, ret, raise, traceback_print_exc,
    speak_safe, stop_speaking, interrupt, clear_all_queues, try_pass,
    stop_current, flush_queue, sd_stop, resume_interruption,
    pause_interruption, resume_listening, act, modify, with_state,
    with_player, with_sd, with_queue, with_locals.

Lemma respond_continues x msg a :
  continues a (snd (respond x msg a)).
Proof.
  destruct a as [[l ac sp g] ai aw q [cj pq] sd m ft tb ac0].
  destruct x as [fu wv stt stp sdr wk lc tts air].
  unfold_app.
  cbn [tn_local tn_ai tn_tts_ok tn_sd_raises traceback_bound fst snd].
  destruct lc as [[[sc lr] pt]|]; [|destruct tb]; cbn;
    split_cases; close_continues.
Qed.

Lemma app_same_nil {A : Type} (l e : list A) : l = l ++ e -> e = [].
Proof.
  intros H. rewrite <- (app_nil_r l) in H at 1.
  apply app_inv_head in H. auto.
Qed.

(** When the AI has answered, the turn leaves the gate closed. *)
Lemma respond_closes_gate x msg a r evs g :
  tn_ai x = Some r ->
  acts (snd (respond x msg a)) = acts a ++ evs ->
  In (AiDispatch g) evs ->
  gate (snd (respond x msg a)) = false.
Proof.
  destruct a as [[l ac sp g0] ai aw q [cj pq] sd m ft tb ac0].
  destruct x as [fu wv stt stp sdr wk lc tts air].
  cbn [tn_ai]. intros ->. revert evs.
  unfold gate. unfold_app.
  cbn [tn_local tn_ai tn_tts_ok tn_sd_raises traceback_bound fst snd].
  destruct lc as [[[sc lr] pt]|]; [|destruct tb]; cbn;
    split_cases; intros evs Hacts Hin; try reflexivity; exfalso;
    rewrite <- ?app_assoc in Hacts;
    first [ apply app_same_nil in Hacts
          | apply app_inv_head in Hacts; symmetry in Hacts ];
    subst evs; simpl in Hin; intuition discriminate.
Qed.

Lemma interrupt_total sdr a :
  exists a',
    interrupt sdr a = (Ok tt, a')
    /\ is_speaking (system_state a') = false
    /\ is_listening (system_state a') = true
    /\ gate a' = gate a
    /\ allow_interruption a' = allow_interruption a
    /\ acts a' = acts a
    /\ audio_queue a' = []
    /\ player_queue (audio_player a') = [].
Proof.
  assert (Hdrain : forall (A : Type) (q : list A), drain q = []).
  { intros A q. induction q; simpl; auto. }
  destruct a as [[l ac sp g] ai aw q [cj pq] sd m ft tb ac0].
  unfold gate. unfold_app. destruct sdr; cbn; rewrite !Hdrain;
    eexists; repeat split; reflexivity.
Qed.


Lemma turn_try_continues env self x a :
  continues a (snd (turn_try env self x a)).
Proof.
  destruct a as [[l ac sp g] ai aw q [cj pq] sd m ft tb ac0].
  unfold turn_try, record, zoom, try_except, bind, get, ret, raise,
    interrupt, clear_all_queues, try_pass, stop_current, flush_queue,
    sd_stop, pause_interruption, act, modify, with_state, with_player,
    with_sd, with_queue, with_locals, with_mic.
  cbv beta iota;
  cbn [system_state allow_interruption allow_wake_word audio_queue
       audio_player sd_playing mic is_first_time traceback_bound acts
       allow_listening_to_user negb fst snd].
  destruct ft; cbv beta iota;
    cbn [system_state allow_interruption allow_wake_word audio_queue
         audio_player sd_playing mic is_first_time traceback_bound acts
         allow_listening_to_user negb fst snd];
    (destruct (record_until_silence env self primary_params (tn_fuel x) m)
       as [[buf | e |] m']; cbn; [| close_continues | close_continues]);
    (destruct (nonempty_bytes buf); cbn; [| close_continues]);
    (destruct (tn_wav x) as [wav|]; cbn; [| close_continues]);
    (destruct (nonempty_bytes wav); cbn; [| close_continues]);
    (destruct (tn_stt x) as [user_input|]; cbn; [| close_continues]);
    (destruct (strip_nonempty user_input); cbn; [| close_continues]);
    (destruct (tn_is_stop x); cbn;
       [destruct (tn_sd_raises x); cbn; close_continues |]);
    (destruct aw; cbn;
       [destruct (fst (tn_wake x)); cbn; [| close_continues] |]);
    match goal with
    | |- context [nonempty_string ?s] =>
        destruct (nonempty_string s); cbn; [| close_continues]
    end;
    (eapply continues_trans; [| apply respond_continues]);
    close_continues.
Qed.

Lemma turn_continues env self x a :
  continues a (snd (turn env self x a)).
Proof.
  unfold turn, try_except.
  pose proof (turn_try_continues env self x a) as H.
  destruct (turn_try env self x a) as [[[] | e |] a1]; cbn [snd] in H |- *;
    try exact H.
  apply continues_trans with a1; [exact H|].
  destruct a1 as [[l ac sp g] ai aw q [cj pq] sd m ft tb ac0].
  unfold bind, traceback_print_exc, get, raise, ret, act, modify.
  destruct tb; cbn; close_continues.
Qed.

Lemma main_thread_continues env self turns a :
  continues a (snd (main_thread env self turns a)).
Proof.
  revert a. induction turns as [|x rest IH]; intros a; simpl.
  - apply continues_refl.
  - unfold bind at 1. unfold get.
    destruct (is_active (system_state a)); [|apply continues_refl].
    unfold bind.
    pose proof (turn_continues env self x a) as H.
    destruct (turn env self x a) as [[[] | e |] a1]; cbn [snd] in H |- *;
      try exact H.
    apply continues_trans with a1; [exact H | apply IH].
Qed.

(** C8, as the code has it. [resume_interruption] sets the gate to
    [allow_interruption]: the gate is open while the remote AI is asked
    and its answer is spoken exactly when barge-in is enabled in the
    configuration. Whatever the collaborators answer, throughout
    [main_thread] every dispatch to the AI finds the gate equal to
    [allow_interruption], every primary listen finds it closed, and once
    the AI has answered (and the answer, if any, has been spoken) the
    gate is closed again. *)
Theorem gate_protocol env self a :
  gate (snd (resume_interruption a)) = allow_interruption a
  /\ gate (snd (pause_interruption a)) = false
  /\ (forall turns,
        exists evs,
          acts (snd (main_thread env self turns a)) = acts a ++ evs
          /\ Forall (act_ok (allow_interruption a)) evs)
  /\ (forall x msg r evs g,
        tn_ai x = Some r ->
        acts (snd (respond x msg a)) = acts a ++ evs ->
        In (AiDispatch g) evs ->
        gate (snd (respond x msg a)) = false).
Proof.
  split; [|split; [|split]].
  - unfold gate, resume_interruption, bind, get, modify. simpl.
    apply andb_true_r.
  - reflexivity.
  - intros turns. apply (main_thread_continues env self turns a).
  - intros x msg r evs g. apply respond_closes_gate.
Qed.


(** With the module defaults ([allow_interruption = False]) the gate is
    still closed after [resume_interruption], and the AI is asked with
    the gate closed. *)
Lemma gate_stays_closed_counterexample :
  ~ (gate (snd (resume_interruption (module_init (world_at 1000)))) = true)
  /\ In (AiDispatch false)
        (acts (snd (main_thread early_drop_env config_recorder
                      [answering_turn] (module_init (world_at 1000))))).
Proof.
  split.
  - vm_compute. discriminate.
  - assert (H : existsb (fun e => match e with
                                  | AiDispatch false => true
                                  | _ => false
                                  end)
                  (acts (snd (main_thread early_drop_env config_recorder
                                [answering_turn]
                                (module_init (world_at 1000))))) = true)
      by (vm_compute; reflexivity).
    apply existsb_exists in H. destruct H as (e & Hin & He).
    destruct e as [| | | | | [|] |]; try discriminate He. exact Hin.
Qed.

(** *** The interrupt sequence *)

(** C7. Idempotent interrupt: when nothing is speaking or playing and
    the queues are empty, [interrupt] raises nothing, leaves
    [is_speaking = false] and [is_listening = true], and a second
    invocation leaves that state unchanged; if the system was already
    listening the first invocation changes nothing either. *)
Theorem interrupt_idempotent sdr sdr' a :
  is_speaking (system_state a) = false ->
  sd_playing a = false ->
  current_job (audio_player a) = None ->
  player_queue (audio_player a) = [] ->
  audio_queue a = [] ->
  exists a',
    interrupt sdr a = (Ok tt, a')
    /\ is_speaking (system_state a') = false
    /\ is_listening (system_state a') = true
    /\ interrupt sdr' a' = (Ok tt, a')
    /\ (is_listening (system_state a) = true -> a' = a).
Proof.
  destruct a as [[l ac sp g] ai aw q [cj pq] sd m ft tb ac0].
  cbn [system_state is_speaking sd_playing audio_player current_job
       player_queue audio_queue is_listening].
  intros -> -> -> -> ->.
  unfold interrupt, clear_all_queues, try_pass, bind, stop_current,
    flush_queue, sd_stop, raise, modify, with_state, with_player, with_sd,
    with_queue.
  destruct sdr, sdr'; cbn; eexists;
    (repeat apply conj; [reflexivity .. | intros ->; reflexivity]).
Qed.

Lemma interrupt_idempotent_witness :
  exists a',
    interrupt false (module_init (world_at 1000)) = (Ok tt, a')
    /\ is_speaking (system_state a') = false
    /\ is_listening (system_state a') = true
    /\ interrupt true a' = (Ok tt, a')
    /\ (is_listening (system_state (module_init (world_at 1000))) = true ->
        a' = module_init (world_at 1000)).
Proof.
  exact (interrupt_idempotent false true (module_init (world_at 1000))
           eq_refl eq_refl eq_refl eq_refl eq_refl).
Defined.

(** *** The barge-in listener *)

Lemma interruption_body_gate_closed env self x a :
  gate a = false -> interruption_body env self x a = (Ok tt, a).
Proof.
  unfold gate, interruption_body, bind, get. intros ->. reflexivity.
Qed.

(** With the gate closed a round of the listener reads nothing from
    the device, which is what the gate is for. *)
Lemma gate_closed_no_read env self x a :
  gate a = false ->
  w_pos (mic (snd (interruption_body env self x a))) = w_pos (mic a).
Proof.
  intros H. rewrite (interruption_body_gate_closed env self x a H).
  reflexivity.
Qed.

Lemma interruption_thread_gate_closed env self rounds a :
  gate a = false -> interruption_thread env self rounds a = (Ok tt, a).
Proof.
  intros H. induction rounds as [|x rest IH]; simpl.
  - reflexivity.
  - unfold bind at 1. unfold get.
    destruct (is_active (system_state a)); [|reflexivity].
    unfold bind. rewrite (interruption_body_gate_closed env self x a H).
    exact IH.
Qed.

(** C9, what the code does. With barge-in enabled and the gate closed
    (the state in which [main] starts the listener), any number of
    rounds of [interruption_thread] leaves the state as it was: no chunk
    is read from the device, and no [Sleep] is among the acts -- the
    loop spins. The rounds in which the gate is open do pause: when the
    capture fails, the handler sleeps 0.1 s. *)
Theorem gate_closed_rounds_spin :
  (forall rounds,
     interruption_thread quiet_env config_recorder rounds
       (barge_in_enabled (world_at 1000))
     = (Ok tt, barge_in_enabled (world_at 1000)))
  /\ acts (barge_in_enabled (world_at 1000)) = []
  /\ acts (snd (interruption_body failing_env config_recorder stop_round
                  (snd (resume_interruption
                          (barge_in_enabled (world_at 1000))))))
     = [BargeInListen; Sleep (1 # 10)].
Proof.
  split; [|split].
  - intros rounds. apply interruption_thread_gate_closed. reflexivity.
  - reflexivity.
  - vm_compute. reflexivity.
Qed.

End AssistantFacts.

(** ** More about the recorder *)

Module RecorderOpsFacts.

Import Py Eff Recorder RecorderOps Durations Scenario PyFacts EffFacts
  RecorderFacts.

(** *** [_ensure_stream] *)

(** X1. [_ensure_stream] opens the stream at most once and never lets a
    failing priming read out: it never raises the device error; when it
    succeeds the stream is open, at most one chunk has been read, and a
    second call does nothing; when it raises, or when the stream was
    open already, nothing has changed. *)
Theorem ensure_stream_once env self w :
  fst (ensure_stream env self w) <> Raise DeviceError
  /\ fst (ensure_stream env self w) <> Diverge
  /\ (fst (ensure_stream env self w) = Ok tt ->
      w_stream (snd (ensure_stream env self w)) = true
      /\ (w_pos (snd (ensure_stream env self w)) <= S (w_pos w))%nat
      /\ ensure_stream env self (snd (ensure_stream env self w))
         = (Ok tt, snd (ensure_stream env self w)))
  /\ (w_stream w = true -> ensure_stream env self w = (Ok tt, w))
  /\ (forall e, fst (ensure_stream env self w) = Raise e ->
                snd (ensure_stream env self w) = w).
Proof.
  destruct w as [c ps pa strm lg].
  unfold ensure_stream, bind, get, set_stream, modify, try_pass,
    stream_read, raise, ret, advance. cbn.
  destruct strm; cbn.
  { repeat split; try discriminate; auto. }
  destruct pa; cbn.
  2:{ repeat split; try discriminate; auto. }
  destruct ((1 <=? width self)%Z && (width self <=? 4)%Z); cbn.
  2:{ repeat split; try discriminate; auto. }
  destruct (env_open env); cbn.
  2:{ repeat split; try discriminate; auto. }
  destruct (rd_data (env_mic env ps)); cbn;
    repeat split; try discriminate; auto.
Qed.

(** *** [close] *)

(** X2. A recorder that has been closed records nothing: whatever the
    parameters, [record_until_silence] and [record_fixed] raise
    RuntimeError, without reading from the device and without letting
    time pass. *)
Theorem closed_recorder_raises env self p fuel d w :
  record_until_silence env self p fuel (snd (close w))
  = (Raise RuntimeError, snd (close w))
  /\ record_fixed env self d (snd (close w))
     = (Raise RuntimeError, snd (close w)).
Proof.
  unfold record_until_silence, record_fixed, close, modify, ensure_stream,
    bind, get, raise.
  cbn. destruct (env_has_pyaudio env); split; reflexivity.
Qed.

(** *** [record_fixed] *)

Lemma iter_advance_pos env n w :
  w_pos (Nat.iter n (advance env) w) = (w_pos w + n)%nat.
Proof.
  induction n as [|n IH]; simpl.
  - lia.
  - rewrite IH. lia.
Qed.

Lemma delivered_cons env from n d :
  rd_data (env_mic env from) = Some d ->
  delivered env from (S n) = d :: delivered env (S from) n.
Proof.
  intros Hd. unfold delivered. simpl. rewrite Hd. reflexivity.
Qed.

Lemma fixed_loop_ok env n fr w :
  all_ok env (w_pos w) (w_pos w + n) ->
  for_range (fixed_body env) n fr w
  = (Ok (fr ++ delivered env (w_pos w) n), Nat.iter n (advance env) w).
Proof.
  revert fr w. induction n as [|n IH]; intros fr w Hok.
  - simpl. rewrite app_nil_r. reflexivity.
  - destruct (rd_data (env_mic env (w_pos w))) as [d|] eqn:Hd.
    2:{ exfalso. apply (Hok (w_pos w)); [lia | exact Hd]. }
    cbn [for_range]. unfold bind at 1. unfold fixed_body at 1.
    unfold bind, stream_read, ret. rewrite Hd.
    rewrite IH.
    + rewrite (delivered_cons env (w_pos w) n d Hd), <- app_assoc.
      rewrite Nat.iter_succ_r. reflexivity.
    + intros i Hi. apply Hok. cbn [advance w_pos] in Hi. lia.
Qed.

Lemma fixed_loop_fails env n k fr w :
  (k < n)%nat ->
  all_ok env (w_pos w) (w_pos w + k) ->
  rd_data (env_mic env (w_pos w + k)) = None ->
  for_range (fixed_body env) n fr w
  = (Raise DeviceError, Nat.iter (S k) (advance env) w).
Proof.
  revert k fr w. induction n as [|n IH]; intros k fr w Hk Hok Hnone; [lia|].
  cbn [for_range]. unfold bind at 1. unfold fixed_body at 1.
  unfold bind, stream_read, ret.
  destruct k as [|k].
  - rewrite Nat.add_0_r in Hnone. rewrite Hnone. reflexivity.
  - destruct (rd_data (env_mic env (w_pos w))) as [d|] eqn:Hd.
    2:{ exfalso. apply (Hok (w_pos w)); [lia | exact Hd]. }
    rewrite (IH k).
    + f_equal. symmetry. apply Nat.iter_succ_r.
    + lia.
    + intros i Hi. apply Hok. cbn [advance w_pos] in Hi. lia.
    + cbn [advance w_pos]. rewrite <- Hnone. f_equal. f_equal. lia.
Qed.

(** The frame count is the one the doubles give, not the one of the
    exact quotient: for 16.016 s at 16 kHz and chunks of 256 the product
    is rounded below 256256 and 1000 chunks are read, not 1001; for
    0.144 s the quotient is rounded up to 9.0 and 9 chunks are read,
    not 8; without a chunk size the division raises. *)
Example total_frames_in_doubles :
  total_frames config_recorder d_16_016 = inr 1000%Z
  /\ total_frames config_recorder d_0_144 = inr 9%Z
  /\ total_frames config_recorder tenth_of_a_second = inr 6%Z
  /\ total_frames {| rate := 16000; width := 2; channels := 1; chunk := 0 |}
       tenth_of_a_second = inl ZeroDivisionError.
Proof. vm_compute. repeat split. Qed.

(** X3. [record_fixed] reads exactly as many chunks as line 141
    computes in double arithmetic, [int(rate * duration_sec / chunk)],
    after the stream is set up, and returns them joined in the order of
    the reads, when the device delivers them all. *)
Theorem record_fixed_reads_all env self d w w0 n :
  ensure_stream env self w = (Ok tt, w0) ->
  total_frames self d = inr n ->
  all_ok env (w_pos w0) (w_pos w0 + Z.to_nat n) ->
  record_fixed env self d w
  = (Ok (concat (delivered env (w_pos w0) (Z.to_nat n))),
     Nat.iter (Z.to_nat n) (advance env) w0)
  /\ w_pos (Nat.iter (Z.to_nat n) (advance env) w0)
     = (w_pos w0 + Z.to_nat n)%nat.
Proof.
  intros He Hn Hok. split; [|apply iter_advance_pos].
  unfold record_fixed. unfold bind at 1. rewrite He.
  unfold bind at 1. rewrite Hn. unfold lift, ret at 1.
  unfold bind. rewrite (fixed_loop_ok env (Z.to_nat n) [] w0 Hok).
  reflexivity.
Qed.

(** X4. A chunk read that fails makes [record_fixed] raise the device
    error at once, whichever of the reads it sets out to make it is:
    the chunks read before are dropped and no further chunk is read. *)
Theorem record_fixed_read_failure env self d w w0 n k :
  ensure_stream env self w = (Ok tt, w0) ->
  total_frames self d = inr n ->
  (k < Z.to_nat n)%nat ->
  all_ok env (w_pos w0) (w_pos w0 + k) ->
  rd_data (env_mic env (w_pos w0 + k)) = None ->
  record_fixed env self d w
  = (Raise DeviceError, Nat.iter (S k) (advance env) w0)
  /\ w_pos (Nat.iter (S k) (advance env) w0) = (w_pos w0 + S k)%nat.
Proof.
  intros He Hn Hk Hok Hnone. split; [|apply iter_advance_pos].
  unfold record_fixed. unfold bind at 1. rewrite He.
  unfold bind at 1. rewrite Hn. unfold lift, ret at 1.
  unfold bind.
  rewrite (fixed_loop_fails env (Z.to_nat n) k [] w0 Hk Hok Hnone).
  reflexivity.
Qed.

Lemma record_fixed_reads_all_witness :
  record_fixed quiet_env config_recorder d_16_016 (world_at 1000)
  = (Ok (concat (delivered quiet_env (w_pos (world_at 1000))
                   (Z.to_nat 1000))),
     Nat.iter (Z.to_nat 1000) (advance quiet_env) (world_at 1000))
  /\ w_pos (Nat.iter (Z.to_nat 1000) (advance quiet_env) (world_at 1000))
     = (w_pos (world_at 1000) + Z.to_nat 1000)%nat.
Proof.
  assert (Hn : total_frames config_recorder d_16_016 = inr 1000%Z)
    by (vm_compute; reflexivity).
  refine (record_fixed_reads_all quiet_env config_recorder d_16_016
            (world_at 1000) (world_at 1000) 1000%Z eq_refl Hn _).
  intros i _ H. discriminate H.
Defined.

Lemma record_fixed_read_failure_witness :
  record_fixed failing_env config_recorder tenth_of_a_second (world_at 1000)
  = (Raise DeviceError, Nat.iter 3 (advance failing_env) (world_at 1000))
  /\ w_pos (Nat.iter 3 (advance failing_env) (world_at 1000))
     = (w_pos (world_at 1000) + 3)%nat.
Proof.
  assert (Hn : total_frames config_recorder tenth_of_a_second = inr 6%Z)
    by (vm_compute; reflexivity).
  refine (record_fixed_read_failure failing_env config_recorder
            tenth_of_a_second (world_at 1000) (world_at 1000) 6%Z 2
            eq_refl Hn _ _ eq_refl).
  - vm_compute. lia.
  - intros i Hi H. cbn [w_pos world_at] in Hi.
    assert (E : i = 0%nat \/ i = 1%nat) by lia.
    destruct E as [-> | ->]; discriminate H.
Defined.

End RecorderOpsFacts.

(** ** More about [record_until_silence] *)

Module RecorderMoreFacts.

Import Py Eff Recorder RecorderOps Scenario PyFacts EffFacts RecorderFacts.

(** X5. Nothing that is read after calibration is left out of the
    result, speech or not: when [record_until_silence] returns, the
    buffer is the ring as calibration left it (the last
    [pre_roll_capacity] calibration chunks) followed by every chunk read
    by the main loop and the post-silence hold, in the order of the
    reads. *)
Theorem buffer_holds_every_chunk env self p fuel w buf :
  fst (record_until_silence env self p fuel w) = Ok buf ->
  buf = concat
          (lastn (pre_roll_capacity self p)
             (delivered env
                (w_pos (snd (ensure_stream env self w)))
                (w_pos (snd (calibration_phase env self p fuel
                               (snd (ensure_stream env self w))))
                 - w_pos (snd (ensure_stream env self w))))
           ++ delivered env
                (w_pos (snd (calibration_phase env self p fuel
                               (snd (ensure_stream env self w)))))
                (w_pos (snd (record_until_silence env self p fuel w))
                 - w_pos (snd (calibration_phase env self p fuel
                                 (snd (ensure_stream env self w)))))).
Proof.
  intros H. exact (returned_buffer env self p fuel w buf H).
Qed.

Lemma buffer_holds_every_chunk_witness :
  returned (record_until_silence (silent_room_env 2) config_recorder
              (silent_room_params 2) 100 (world_at 1000))
  = concat
      (lastn (pre_roll_capacity config_recorder (silent_room_params 2))
         (delivered (silent_room_env 2)
            (w_pos (snd (ensure_stream (silent_room_env 2) config_recorder
                           (world_at 1000))))
            (w_pos (snd (calibration_phase (silent_room_env 2)
                           config_recorder (silent_room_params 2) 100
                           (snd (ensure_stream (silent_room_env 2)
                                   config_recorder (world_at 1000)))))
             - w_pos (snd (ensure_stream (silent_room_env 2) config_recorder
                             (world_at 1000)))))
       ++ delivered (silent_room_env 2)
            (w_pos (snd (calibration_phase (silent_room_env 2)
                           config_recorder (silent_room_params 2) 100
                           (snd (ensure_stream (silent_room_env 2)
                                   config_recorder (world_at 1000))))))
            (w_pos (snd (record_until_silence (silent_room_env 2)
                           config_recorder (silent_room_params 2) 100
                           (world_at 1000)))
             - w_pos (snd (calibration_phase (silent_room_env 2)
                             config_recorder (silent_room_params 2) 100
                             (snd (ensure_stream (silent_room_env 2)
                                     config_recorder (world_at 1000))))))).
Proof.
  assert (H : is_ok (fst (record_until_silence (silent_room_env 2)
                            config_recorder (silent_room_params 2) 100
                            (world_at 1000))) = true)
    by (vm_compute; reflexivity).
  exact (buffer_holds_every_chunk (silent_room_env 2) config_recorder
           (silent_room_params 2) 100 (world_at 1000) _ (RecorderClaims.returned_ok _ H)).
Defined.

(** X6. Within one call speech starts at most once and ends at most
    once, the end after the start: the detector never falls back to
    "not speaking", and the first end of speech closes the call. *)
Theorem speech_starts_and_ends_once env self p fuel w :
  exists evs,
    w_log (snd (record_until_silence env self p fuel w)) = w_log w ++ evs
    /\ (evs = []
        \/ (exists t, evs = [SpeechStart t])
        \/ (exists t t', evs = [SpeechStart t; SpeechEnd t']
                         /\ min_speech_after_start p <= t' - t)).
Proof.
  exact (record_until_silence_log env self p fuel w).
Qed.

(** *** A stream that stays below the lower bound of the start threshold *)

Lemma start_threshold_floor nf boost : 150 <= start_threshold nf boost.
Proof. unfold start_threshold. apply max2_ub_l. Qed.

Lemma main_body_quiet env self p st et dl (s : Vad) w :
  speaking s = false ->
  (forall d, rd_data (env_mic env (w_pos w)) = Some d ->
             inject_Z (env_rms env d (width self)) < st) ->
  (dl <= w_clock w
   /\ main_body env self p st et dl s w = (Ok (inr (frames s)), w))
  \/ (w_clock w < dl
      /\ main_body env self p st et dl s w
         = (Raise DeviceError, advance env w))
  \/ (exists s',
        w_clock w < dl /\ speaking s' = false
        /\ main_body env self p st et dl s w = (Ok (inl s'), advance env w)).
Proof.
  intros Hsp Hq.
  unfold main_body, bind, time_time, stream_read, ret, observe, modify.
  destruct (Qle_bool dl (w_clock w)) eqn:E.
  { apply Qle_bool_iff in E. left. auto. }
  apply Qle_bool_gt in E. right.
  destruct (rd_data (env_mic env (w_pos w))) as [d|] eqn:Ed.
  2:{ left. auto. }
  right. rewrite Hsp. cbn [negb]. cbv beta iota.
  specialize (Hq d eq_refl).
  destruct (Qle_bool st (inject_Z (env_rms env d (width self)))) eqn:El.
  { apply Qle_bool_iff in El. exfalso. lra. }
  eexists. split; [exact E|]. split; [|reflexivity]. reflexivity.
Qed.

Lemma detection_phase_quiet env self p fuel cal w :
  (forall i d, rd_data (env_mic env i) = Some d ->
               (env_rms env d (width self) < 150)%Z) ->
  w_log (snd (detection_phase env self p fuel cal w)) = w_log w
  /\ (is_ok (fst (detection_phase env self p fuel cal w)) = true ->
      w_clock w + max_duration p
      <= w_clock (snd (detection_phase env self p fuel cal w))).
Proof.
  intros Hq. unfold detection_phase, bind, time_time.
  set (st := start_threshold _ _). set (et := end_threshold _ _).
  set (dl := w_clock w + max_duration p).
  assert (Hst : 150 <= st) by apply start_threshold_floor.
  apply (loop_inv (main_body env self p st et dl)
           (fun s w' => speaking s = false /\ w_log w' = w_log w)
           (fun o w' => w_log w' = w_log w
                        /\ (is_ok o = true -> dl <= w_clock w'))).
  - intros s w0 [Hsp Hlog].
    assert (Hq0 : forall d, rd_data (env_mic env (w_pos w0)) = Some d ->
                            inject_Z (env_rms env d (width self)) < st).
    { intros d Hd. specialize (Hq _ d Hd).
      apply Qlt_le_trans with 150; [|exact Hst].
      change 150 with (inject_Z 150). rewrite <- Zlt_Qlt. exact Hq. }
    destruct (main_body_quiet env self p st et dl s w0 Hsp Hq0)
      as [(Hdl & ->) | [(_ & ->) | (s' & _ & Hs' & ->)]].
    + split; [exact Hlog | intros _; exact Hdl].
    + split; [exact Hlog | discriminate].
    + split; [exact Hs' | exact Hlog].
  - intros s w0 [_ Hlog]. split; [exact Hlog | discriminate].
  - split; reflexivity.
Qed.

Lemma quiet_stream_log env self p fuel w :
  (forall i d, rd_data (env_mic env i) = Some d ->
               (env_rms env d (width self) < 150)%Z) ->
  w_log (snd (record_until_silence env self p fuel w)) = w_log w.
Proof.
  intros Hq. unfold record_until_silence.
  destruct (env_has_pyaudio env); cbn [negb]; [|reflexivity].
  unfold bind at 1.
  pose proof (ensure_stream_log env self w) as He.
  destruct (ensure_stream env self w) as [[[] | e |] w0]; cbn [fst snd] in *;
    [| exact He | exact He].
  unfold bind at 1. unfold record_body, bind at 1.
  pose proof (calibration_phase_log env self p fuel w0) as Hc.
  destruct (calibration_phase env self p fuel w0) as [[cal | e |] w1];
    cbn [fst snd] in *; [| congruence | congruence].
  destruct (detection_phase_quiet env self p fuel cal w1 Hq) as [Hl _].
  destruct (detection_phase env self p fuel cal w1) as [[fr | e |] w'];
    cbn [fst snd ret] in *; congruence.
Qed.

(** X7. A stream whose chunks all stay below energy 150, the least
    value the start threshold can take, never starts speech: nothing is
    observed, and a call that returns does so only once the clock has
    reached the deadline, [max_duration] after calibration ended. *)
Theorem quiet_stream_never_speaks env self p fuel w :
  (forall i d, rd_data (env_mic env i) = Some d ->
               (env_rms env d (width self) < 150)%Z) ->
  w_log (snd (record_until_silence env self p fuel w)) = w_log w
  /\ (is_ok (fst (record_until_silence env self p fuel w)) = true ->
      w_clock (snd (calibration_phase env self p fuel
                      (snd (ensure_stream env self w))))
      + max_duration p
      <= w_clock (snd (record_until_silence env self p fuel w))).
Proof.
  intros Hq. split; [exact (quiet_stream_log env self p fuel w Hq)|].
  intros Hok. apply RecorderClaims.returned_ok in Hok.
  destruct (record_until_silence_ok env self p fuel w _ Hok)
    as (cal & fr & _ & _ & Hc & Hd & _).
  destruct (detection_phase_quiet env self p fuel cal
              (snd (calibration_phase env self p fuel
                      (snd (ensure_stream env self w)))) Hq) as [_ Hdl].
  rewrite Hd in Hdl. cbn [fst snd is_ok] in Hdl. apply Hdl. reflexivity.
Qed.

Lemma quiet_stream_never_speaks_witness :
  w_log (snd (record_until_silence quiet_env config_recorder
                Assistant.barge_in_params 200 (world_at 1000)))
  = w_log (world_at 1000)
  /\ (is_ok (fst (record_until_silence quiet_env config_recorder
                    Assistant.barge_in_params 200 (world_at 1000))) = true ->
      w_clock (snd (calibration_phase quiet_env config_recorder
                      Assistant.barge_in_params 200
                      (snd (ensure_stream quiet_env config_recorder
                              (world_at 1000)))))
      + max_duration Assistant.barge_in_params
      <= w_clock (snd (record_until_silence quiet_env config_recorder
                         Assistant.barge_in_params 200 (world_at 1000)))).
Proof.
  apply (quiet_stream_never_speaks quiet_env config_recorder
           Assistant.barge_in_params 200 (world_at 1000)).
  intros i d Hd.
  assert (E : nth i [] 30%Z = 30%Z) by (destruct i; reflexivity).
  unfold quiet_env, env_of, mic_of in Hd. cbn [env_mic rd_data] in Hd.
  rewrite E in Hd. injection Hd as <-. vm_compute. reflexivity.
Defined.

End RecorderMoreFacts.

(** ** Bounded queues: [safe_put] *)

Module QueuesFacts.

Import Py Recorder Queues.

Lemma lastn_app_ge {A : Type} (m : nat) (a s : list A) :
  (m <= length s)%nat -> lastn m (a ++ s) = lastn m s.
Proof.
  intros H. unfold lastn. rewrite length_app, skipn_app.
  replace (length a + length s - m - length a)%nat
    with (length s - m)%nat by lia.
  rewrite skipn_all2 by lia. reflexivity.
Qed.

Lemma lastn_le {A : Type} (m : nat) (l : list A) :
  (length l <= m)%nat -> lastn m l = l.
Proof.
  intros H. unfold lastn.
  replace (length l - m)%nat with 0%nat by lia. reflexivity.
Qed.

Lemma lastn_length {A : Type} (m : nat) (l : list A) :
  length (lastn m l) = Nat.min m (length l).
Proof. unfold lastn. rewrite length_skipn. lia. Qed.

Lemma lastn_lastn_app {A : Type} (m : nat) (l r : list A) :
  lastn m (lastn m l ++ r) = lastn m (l ++ r).
Proof.
  destruct (Nat.le_gt_cases (length l) m) as [Hle | Hgt].
  - rewrite (lastn_le m l Hle). reflexivity.
  - assert (Hl : l = firstn (length l - m) l ++ lastn m l)
      by (unfold lastn; symmetry; apply firstn_skipn).
    rewrite Hl at 2. rewrite <- app_assoc.
    apply eq_sym, lastn_app_ge.
    rewrite length_app, lastn_length. lia.
Qed.

Lemma tl_lastn_snoc {A : Type} (m : nat) (l : list A) (x : A) :
  (0 < m)%nat -> length l = m ->
  tl l ++ [x] = lastn m (l ++ [x]).
Proof.
  intros Hm Hl. unfold lastn. rewrite length_app. simpl.
  replace (length l + 1 - m)%nat with 1%nat by lia.
  destruct l as [|a l]; [simpl in Hl; lia | reflexivity].
Qed.

(** One [safe_put] on a queue that respects its bound. *)
Lemma safe_put_step {A : Type} (q : Queue A) (x : A) :
  within_bound q ->
  safe_put q x
  = inr {| maxsize := maxsize q;
           items := (if full q then tl (items q) else items q) ++ [x] |}.
Proof.
  unfold within_bound, safe_put, put_nowait, get_nowait.
  destruct (full q) eqn:Hf; [|reflexivity].
  intros Hb. unfold full in Hf. apply andb_prop in Hf. destruct Hf as [H0 H1].
  apply Z.ltb_lt in H0. apply Z.leb_le in H1. specialize (Hb H0).
  destruct (items q) as [|a l] eqn:Hi.
  - simpl in H1. lia.
  - cbn [tl]. unfold full. cbn [maxsize items].
    replace (maxsize q <=? Z.of_nat (length l))%Z with false.
    + rewrite andb_false_r. reflexivity.
    + symmetry. apply Z.leb_gt. simpl length in Hb. lia.
Qed.

(** X8. [safe_put] on a queue that respects its bound never raises: the
    item becomes the newest entry, the oldest entry is given up exactly
    when the queue was full, the others keep their order, and the bound
    still holds afterwards. *)
Theorem safe_put_drops_oldest {A : Type} (q : Queue A) (x : A) :
  within_bound q ->
  exists q',
    safe_put q x = inr q'
    /\ maxsize q' = maxsize q
    /\ items q' = (if full q then tl (items q) else items q) ++ [x]
    /\ within_bound q'
    /\ (full q = false -> length (items q') = S (length (items q)))
    /\ (full q = true -> length (items q') = length (items q)).
Proof.
  intros Hb. rewrite (safe_put_step q x Hb).
  eexists. split; [reflexivity|]. cbn [maxsize items].
  split; [reflexivity|]. split; [reflexivity|].
  unfold within_bound in *. cbn [maxsize items].
  rewrite length_app. simpl length. unfold full.
  destruct (0 <? maxsize q)%Z eqn:H0; cbn [andb].
  - apply Z.ltb_lt in H0. specialize (Hb H0).
    destruct (maxsize q <=? Z.of_nat (length (items q)))%Z eqn:H1.
    + apply Z.leb_le in H1.
      destruct (items q) as [|a l]; simpl in *; [lia|].
      repeat split; intros; try discriminate; lia.
    + apply Z.leb_gt in H1.
      repeat split; intros; try discriminate; lia.
  - apply Z.ltb_ge in H0.
    repeat split; intros; try discriminate; lia.
Qed.

Lemma safe_put_drops_oldest_witness :
  exists q',
    safe_put {| maxsize := 3; items := [1%Z; 2%Z; 3%Z] |} 4%Z = inr q'
    /\ maxsize q' = maxsize {| maxsize := 3; items := [1%Z; 2%Z; 3%Z] |}
    /\ items q'
       = (if full {| maxsize := 3; items := [1%Z; 2%Z; 3%Z] |}
          then tl (items {| maxsize := 3; items := [1%Z; 2%Z; 3%Z] |})
          else items {| maxsize := 3; items := [1%Z; 2%Z; 3%Z] |}) ++ [4%Z]
    /\ within_bound q'
    /\ (full {| maxsize := 3; items := [1%Z; 2%Z; 3%Z] |} = false ->
        length (items q')
        = S (length (items {| maxsize := 3; items := [1%Z; 2%Z; 3%Z] |})))
    /\ (full {| maxsize := 3; items := [1%Z; 2%Z; 3%Z] |} = true ->
        length (items q')
        = length (items {| maxsize := 3; items := [1%Z; 2%Z; 3%Z] |})).
Proof.
  apply (safe_put_drops_oldest {| maxsize := 3; items := [1%Z; 2%Z; 3%Z] |}
           4%Z).
  unfold within_bound. simpl. lia.
Defined.

(** X9. A bounded queue fed through [safe_put] alone holds the newest
    [maxsize] items, in the order they were put: whatever is put into a
    queue of bound [m > 0] that respects its bound, no put raises and the
    queue ends up with the last [m] entries of what it held followed by
    what was put. *)
Theorem safe_put_all_keeps_newest {A : Type} (q : Queue A) (xs : list A) :
  (0 < maxsize q)%Z ->
  (Z.of_nat (length (items q)) <= maxsize q)%Z ->
  safe_put_all q xs
  = inr {| maxsize := maxsize q;
           items := lastn (Z.to_nat (maxsize q)) (items q ++ xs) |}.
Proof.
  revert q. induction xs as [|x rest IH]; intros q H0 Hb.
  - simpl. rewrite app_nil_r, lastn_le by lia. destruct q; reflexivity.
  - cbn [safe_put_all].
    assert (Hw : within_bound q) by (intros _; exact Hb).
    rewrite (safe_put_step q x Hw).
    assert (Hi : (if full q then tl (items q) else items q) ++ [x]
                 = lastn (Z.to_nat (maxsize q)) (items q ++ [x])).
    { unfold full. replace (0 <? maxsize q)%Z with true
        by (symmetry; apply Z.ltb_lt; exact H0).
      cbn [andb].
      destruct (maxsize q <=? Z.of_nat (length (items q)))%Z eqn:H1.
      - apply Z.leb_le in H1. apply tl_lastn_snoc; lia.
      - apply Z.leb_gt in H1. symmetry. apply lastn_le.
        rewrite length_app. simpl. lia. }
    rewrite Hi. rewrite IH; cbn [maxsize items].
    + rewrite lastn_lastn_app, <- app_assoc. reflexivity.
    + exact H0.
    + rewrite lastn_length. lia.
Qed.

Lemma safe_put_all_keeps_newest_witness :
  safe_put_all {| maxsize := 3; items := [1%Z] |} [2%Z; 3%Z; 4%Z; 5%Z]
  = inr {| maxsize := maxsize {| maxsize := 3; items := [1%Z] |};
           items := lastn (Z.to_nat (maxsize {| maxsize := 3;
                                                items := [1%Z] |}))
                      (items {| maxsize := 3; items := [1%Z] |}
                       ++ [2%Z; 3%Z; 4%Z; 5%Z]) |}.
Proof.
  apply (safe_put_all_keeps_newest {| maxsize := 3; items := [1%Z] |}
           [2%Z; 3%Z; 4%Z; 5%Z]); simpl; lia.
Defined.

End QueuesFacts.

(** ** The audio player *)

Module PlayerFacts.

Import Py Eff Queues Player PyFacts QueuesFacts.

Lemma clamp_volume_range (v : Q) :
  0 <= clamp_volume v /\ clamp_volume v <= 1.
Proof.
  unfold clamp_volume, max2, min2.
  destruct (Qltb v 1) eqn:E1.
  - apply Qltb_lt in E1.
    destruct (Qltb 0 v) eqn:E0.
    + apply Qltb_lt in E0. split; lra.
    + split; lra.
  - destruct (Qltb 0 1) eqn:E0; split; lra.
Qed.


Lemma queue_ok_within (p : AudioPlayer) :
  queue_ok p -> within_bound (queue p).
Proof. intros (Hm & Hl & _) _. rewrite Hm. lia. Qed.

Lemma Forall_tl {A : Type} (P : A -> Prop) (l : list A) :
  Forall P l -> Forall P (tl l).
Proof. intros H. destruct H; [constructor | assumption]. Qed.

(** What [play_async] does with a path that is accepted. *)
Lemma play_async_accepts p pth vol :
  queue_ok p ->
  nonempty pth = true ->
  debounced p pth = false ->
  exists q,
    play_async p pth vol
    = inr (new_job pth false (clamp_volume vol), set_queue q p)
    /\ maxsize q = 8%Z
    /\ items q = (if full (queue p) then tl (items (queue p))
                  else items (queue p))
                 ++ [new_job pth false (clamp_volume vol)]
    /\ queue_ok (set_queue q p).
Proof.
  intros Hok Hne Hdb. unfold play_async. rewrite Hne, Hdb. cbn [negb].
  rewrite (safe_put_step (queue p) (new_job pth false (clamp_volume vol))
             (queue_ok_within p Hok)).
  destruct Hok as (Hm8 & Hlen & Hall).
  eexists. split; [reflexivity|]. cbn [maxsize items].
  split; [exact Hm8|]. split; [reflexivity|].
  unfold queue_ok. cbn [queue set_queue maxsize items].
  split; [exact Hm8|]. split.
  - rewrite length_app. simpl length. unfold full. rewrite Hm8.
    cbn [Z.ltb Z.compare andb].
    destruct (8 <=? Z.of_nat (length (items (queue p))))%Z eqn:Hf.
    + apply Z.leb_le in Hf.
      destruct (items (queue p)) as [|j l]; simpl in *; lia.
    + apply Z.leb_gt in Hf. lia.
  - apply Forall_app. split.
    + destruct (full (queue p)); [apply Forall_tl|]; exact Hall.
    + constructor; [|constructor]. unfold job_ok. cbn [path volume new_job].
      split; [exact Hne | apply clamp_volume_range].
Qed.

Lemma run_round_queue_ok r p :
  queue_ok p -> queue_ok (fst (fst (run_round r p))).
Proof.
  intros Hok. unfold run_round.
  destruct (running p); cbn [negb fst]; [|exact Hok].
  unfold get_nowait.
  destruct (items (queue p)) as [|job rest] eqn:Hi; cbn [fst].
  - exact Hok.
  - assert (Hq : queue_ok (set_queue {| maxsize := maxsize (queue p);
                                        items := rest |} p)).
    { destruct Hok as (Hm & Hl & Ha). rewrite Hi in Hl, Ha.
      unfold queue_ok. cbn [queue set_queue maxsize items].
      split; [exact Hm|]. split; [simpl in Hl; lia|].
      inversion Ha; assumption. }
    destruct (negb (nonempty (path job)) && negb (running_again r));
      cbn [fst]; [exact Hq|].
    destruct (negb (exists_on_disk r (path job))); cbn [fst]; [exact Hq|].
    cbn [set_queue pa_ready].
    destruct (pa_ready p); exact Hq.
Qed.



(** X11. Debouncing. Once the worker has taken a job whose file exists
    and gone through playing it (with or without PyAudio), asking for
    the same path again less than [min_gap_sec] later enqueues nothing:
    the job handed back is in no queue and nothing will ever set its
    [done]. From [min_gap_sec] on the path is accepted again and its job
    is the newest in the queue. *)
Theorem replay_is_debounced r p job rest d vol :
  queue_ok p ->
  running p = true ->
  items (queue p) = job :: rest ->
  exists_on_disk r (path job) = true ->
  0 <= d ->
  let p' := wait d (fst (fst (run_round r p))) in
  (d < min_gap_sec p ->
   play_async p' (path job) vol = inr (new_job (path job) false 1, p'))
  /\ (min_gap_sec p <= d ->
      exists q,
        play_async p' (path job) vol
        = inr (new_job (path job) false (clamp_volume vol), set_queue q p')
        /\ items q = rest ++ [new_job (path job) false (clamp_volume vol)]).
Proof.
  intros Hok Hrun Hi Hex Hd.
  assert (Hne : nonempty (path job) = true).
  { unfold exists_on_disk in Hex. apply andb_prop in Hex. apply Hex. }
  assert (Hround : exists p1,
            fst (fst (run_round r p)) = p1
            /\ items (queue p1) = rest
            /\ maxsize (queue p1) = maxsize (queue p)
            /\ min_gap_sec p1 = min_gap_sec p
            /\ last_play_ts p1 (path job) = Some (clock p1)).
  { unfold run_round, get_nowait. rewrite Hrun, Hi, Hne, Hex.
    cbn [negb andb fst set_queue pa_ready].
    eexists. split; [reflexivity|].
    destruct (pa_ready p); cbn [queue items maxsize min_gap_sec last_play_ts
                                wait clock];
      unfold set_ts; rewrite String.eqb_refl; repeat split; reflexivity. }
  destruct Hround as (p1 & E1 & Hi1 & Hm1 & Hg1 & Hts).
  pose proof (run_round_queue_ok r p Hok) as Hq. rewrite E1 in Hq.
  cbv zeta. rewrite E1.
  assert (Hdeb : debounced (wait d p1) (path job)
                 = Qltb d (min_gap_sec p)).
  { unfold debounced. cbn [wait last_play_ts clock min_gap_sec].
    rewrite Hts, Hg1. unfold Qltb. f_equal.
    destruct (Qle_bool (min_gap_sec p) (clock p1 + d - clock p1)) eqn:E.
    - symmetry. apply Qle_bool_iff. apply Qle_bool_iff in E. lra.
    - symmetry. apply Qle_bool_gt. apply Qle_bool_gt in E. lra. }
  split.
  - intros Hlt. unfold play_async. rewrite Hne, Hdeb. cbn [negb].
    replace (Qltb d (min_gap_sec p)) with true
      by (symmetry; apply Qltb_lt; exact Hlt).
    reflexivity.
  - intros Hge.
    assert (Hok' : queue_ok (wait d p1)) by exact Hq.
    assert (Hdb' : debounced (wait d p1) (path job) = false)
      by (rewrite Hdeb; apply Qltb_ge; exact Hge).
    destruct (play_async_accepts (wait d p1) (path job) vol Hok' Hne Hdb')
      as (q & Eq & _ & Hiq & _).
    exists q. split; [exact Eq|]. rewrite Hiq.
    cbn [wait queue]. rewrite Hi1.
    replace (full (queue p1)) with false; [reflexivity|].
    symmetry. unfold full.
    destruct Hok as (Hm & Hl & _). rewrite Hm1, Hm, Hi1.
    rewrite Hi in Hl. simpl in Hl.
    cbn [Z.ltb Z.compare andb]. apply Z.leb_gt. lia.
Qed.

Lemma replay_is_debounced_witness :
  ((1 # 10) < min_gap_sec queued_bell ->
   play_async (wait (1 # 10) (fst (fst (run_round plays_all queued_bell))))
     (path (new_job bell false 1)) 1
   = inr (new_job (path (new_job bell false 1)) false 1,
          wait (1 # 10) (fst (fst (run_round plays_all queued_bell)))))
  /\ (min_gap_sec queued_bell <= (1 # 10) ->
      exists q,
        play_async
          (wait (1 # 10) (fst (fst (run_round plays_all queued_bell))))
          (path (new_job bell false 1)) 1
        = inr (new_job (path (new_job bell false 1)) false (clamp_volume 1),
               set_queue q
                 (wait (1 # 10)
                    (fst (fst (run_round plays_all queued_bell)))))
        /\ items q
           = [] ++ [new_job (path (new_job bell false 1)) false
                      (clamp_volume 1)]).
Proof.
  assert (Hok : queue_ok queued_bell).
  { unfold queue_ok. split; [reflexivity|]. split; [simpl; lia|].
    constructor; [|constructor]. unfold job_ok. simpl.
    split; [reflexivity|]. split; lra. }
  assert (Hd : 0 <= 1 # 10) by lra.
  exact (replay_is_debounced plays_all queued_bell (new_job bell false 1) []
           (1 # 10) 1 Hok eq_refl eq_refl eq_refl Hd).
Defined.

End PlayerFacts.

(** ** More about the assistant *)

Module AssistantMoreFacts.

Import Py Eff Recorder Assistant Scenario AssistantFacts Threads.

(** [bool(s.strip())] on the UTF-8 bytes: a NO-BREAK SPACE (c2 a0), an
    IDEOGRAPHIC SPACE (e3 80 80) and ASCII blanks are stripped; a
    COPYRIGHT SIGN (c2 a9) and a letter after blanks are not. *)
Example strip_nonempty_unicode :
  strip_nonempty (String.String (ascii_of_nat 194)
                    (String.String (ascii_of_nat 160) String.EmptyString))
  = false
  /\ strip_nonempty
       (String.String (ascii_of_nat 32)
          (String.String (ascii_of_nat 227)
             (String.String (ascii_of_nat 128)
                (String.String (ascii_of_nat 128)
                   (String.String (ascii_of_nat 9) String.EmptyString)))))
     = false
  /\ strip_nonempty (String.String (ascii_of_nat 194)
                       (String.String (ascii_of_nat 169) String.EmptyString))
     = true
  /\ strip_nonempty
       (String.String (ascii_of_nat 194)
          (String.String (ascii_of_nat 160)
             (String.String (ascii_of_nat 97) String.EmptyString)))
     = true.
Proof. vm_compute. repeat split. Qed.

Lemma keeps_refl a : keeps a a.
Proof. unfold keeps. repeat split; auto. Qed.

Lemma keeps_trans a b c : keeps a b -> keeps b c -> keeps a c.
Proof.
  unfold keeps. intros (A1 & A2 & A3 & A4 & A5) (B1 & B2 & B3 & B4 & B5).
  repeat split; try congruence; auto.
  intros H. destruct (B5 H) as [G | G]; [auto | right; congruence].
Qed.

Ltac absurd_eq := let H := fresh in intros H; discriminate H.

Ltac close_keeps :=
  unfold keeps, gate;
  cbn [system_state allow_interruption allow_wake_word traceback_bound
       is_active allow_listening_to_user];
  rewrite ?andb_true_r;
  repeat split; auto; intros; try discriminate; auto.

Lemma respond_keeps x msg a : keeps a (snd (respond x msg a)).
Proof.
  destruct a as [[l ac sp g] ai aw q [cj pq] sd m ft tb ac0].
  destruct x as [fu wv stt stp sdr wk lc tts air].
  unfold_app.
  cbn [tn_local tn_ai tn_tts_ok tn_sd_raises traceback_bound fst snd].
  destruct lc as [[[sc lr] pt]|]; [|destruct tb]; cbn;
    split_cases; close_keeps.
Qed.

Lemma turn_try_keeps env self x a :
  keeps a (snd (turn_try env self x a)).
Proof.
  destruct a as [[l ac sp g] ai aw q [cj pq] sd m ft tb ac0].
  unfold turn_try, record, zoom, try_except, bind, get, ret, raise,
    interrupt, clear_all_queues, try_pass, stop_current, flush_queue,
    sd_stop, pause_interruption, act, modify, with_state, with_player,
    with_sd, with_queue, with_locals, with_mic.
  cbv beta iota;
  cbn [system_state allow_interruption allow_wake_word audio_queue
       audio_player sd_playing mic is_first_time traceback_bound acts
       allow_listening_to_user negb fst snd].
  destruct ft; cbv beta iota;
    cbn [system_state allow_interruption allow_wake_word audio_queue
         audio_player sd_playing mic is_first_time traceback_bound acts
         allow_listening_to_user negb fst snd];
    (destruct (record_until_silence env self primary_params (tn_fuel x) m)
       as [[buf | e |] m']; cbn; [| close_keeps | close_keeps]);
    (destruct (nonempty_bytes buf); cbn; [| close_keeps]);
    (destruct (tn_wav x) as [wav|]; cbn; [| close_keeps]);
    (destruct (nonempty_bytes wav); cbn; [| close_keeps]);
    (destruct (tn_stt x) as [user_input|]; cbn; [| close_keeps]);
    (destruct (strip_nonempty user_input); cbn; [| close_keeps]);
    (destruct (tn_is_stop x); cbn;
       [destruct (tn_sd_raises x); cbn; close_keeps |]);
    (destruct aw; cbn;
       [destruct (fst (tn_wake x)); cbn; [| close_keeps] |]);
    match goal with
    | |- context [nonempty_string ?s] =>
        destruct (nonempty_string s); cbn; [| close_keeps]
    end;
    (eapply keeps_trans; [| apply respond_keeps]);
    close_keeps.
Qed.

Lemma handler_keeps a :
  keeps a (snd ((traceback_print_exc ;;; act (Sleep (2 # 10))) a)).
Proof.
  destruct a as [[l ac sp g] ai aw q [cj pq] sd m ft tb ac0].
  unfold bind, traceback_print_exc, get, raise, ret, act, modify.
  destruct tb; cbn; close_keeps.
Qed.

Lemma turn_keeps env self x a :
  keeps a (snd (turn env self x a)).
Proof.
  unfold turn, try_except.
  pose proof (turn_try_keeps env self x a) as H.
  destruct (turn_try env self x a) as [[[] | e |] a1]; cbn [snd] in H |- *;
    try exact H.
  apply keeps_trans with a1; [exact H | apply handler_keeps].
Qed.

(** What [turn] can raise. *)
Lemma turn_raises env self x a e :
  fst (turn env self x a) = Raise e ->
  e = UnboundLocalError /\ traceback_bound a = false.
Proof.
  unfold turn, try_except.
  pose proof (turn_try_keeps env self x a) as (_ & _ & _ & Htb & _).
  destruct (turn_try env self x a) as [[[] | e0 |] a1]; cbn [fst snd] in *;
    try absurd_eq.
  unfold bind, traceback_print_exc, get, raise, ret, act, modify.
  cbn. destruct (traceback_bound a1) eqn:E1; cbn; [absurd_eq|].
  intros H. injection H as <-. split; [reflexivity|].
  destruct (traceback_bound a); [|reflexivity].
  specialize (Htb eq_refl). discriminate Htb.
Qed.

Lemma main_thread_keeps env self turns a :
  keeps a (snd (main_thread env self turns a)).
Proof.
  revert a. induction turns as [|x rest IH]; intros a; simpl.
  - apply keeps_refl.
  - unfold bind at 1. unfold get.
    destruct (is_active (system_state a)); [|apply keeps_refl].
    unfold bind.
    pose proof (turn_keeps env self x a) as H.
    destruct (turn env self x a) as [[[] | e |] a1]; cbn [snd] in H |- *;
      try exact H.
    apply keeps_trans with a1; [exact H | apply IH].
Qed.

(** X12. [main_thread] can end with an exception in one way only: the
    handler of its loop calls [traceback.print_exc()] while the local
    name [traceback] is still unbound, which raises [UnboundLocalError]
    out of the thread. This needs that no speech-to-text failure has
    been handled before; once one has (line 478 has bound the name),
    no turn ever raises. *)
Theorem main_thread_raises_only_unbound env self turns a e :
  fst (main_thread env self turns a) = Raise e ->
  e = UnboundLocalError /\ traceback_bound a = false.
Proof.
  revert a. induction turns as [|x rest IH]; intros a; simpl.
  - absurd_eq.
  - unfold bind at 1. unfold get.
    destruct (is_active (system_state a)); [|absurd_eq].
    unfold bind.
    pose proof (turn_keeps env self x a) as (_ & _ & _ & Htb & _).
    pose proof (turn_raises env self x a) as Hr.
    destruct (turn env self x a) as [[[] | e0 |] a1]; cbn [fst snd] in *.
    + intros H. destruct (IH a1 H) as [-> Hb]. split; [reflexivity|].
      destruct (traceback_bound a); [|reflexivity].
      specialize (Htb eq_refl). congruence.
    + intros H. injection H as <-. apply Hr. reflexivity.
    + absurd_eq.
Qed.

Lemma main_thread_raises_only_unbound_witness :
  fst (main_thread failing_env config_recorder [answering_turn]
         (module_init (world_at 1000)))
  = Raise UnboundLocalError
  /\ UnboundLocalError = UnboundLocalError
  /\ traceback_bound (module_init (world_at 1000)) = false.
Proof.
  assert (H : fst (main_thread failing_env config_recorder [answering_turn]
                     (module_init (world_at 1000)))
              = Raise UnboundLocalError) by (vm_compute; reflexivity).
  split; [exact H|].
  exact (main_thread_raises_only_unbound failing_env config_recorder
           [answering_turn] (module_init (world_at 1000)) UnboundLocalError H).
Defined.

(** *** What it takes for a turn to answer *)

Ltac no_reply :=
  let evs := fresh "evs" in
  let Hacts := fresh "Hacts" in
  let Hex := fresh "Hex" in
  intros evs Hacts Hex; exfalso;
  cbn [acts] in Hacts; rewrite <- ?app_assoc in Hacts;
  first [ apply app_same_nil in Hacts
        | apply app_inv_head in Hacts; symmetry in Hacts ];
  subst evs; simpl in Hex; discriminate Hex.

Lemma turn_try_reply env self x a :
  forall evs,
    acts (snd (turn_try env self x a)) = acts a ++ evs ->
    existsb is_reply evs = true ->
    tn_is_stop x = false
    /\ (exists u, tn_stt x = Some u /\ strip_nonempty u = true)
    /\ (allow_wake_word a = true ->
        fst (tn_wake x) = true
        /\ nonempty_string (snd (tn_wake x)) = true).
Proof.
  destruct a as [[l ac sp g] ai aw q [cj pq] sd m ft tb ac0].
  unfold turn_try, record, zoom, try_except, bind, get, ret, raise,
    interrupt, clear_all_queues, try_pass, stop_current, flush_queue,
    sd_stop, pause_interruption, act, modify, with_state, with_player,
    with_sd, with_queue, with_locals, with_mic.
  cbv beta iota;
  cbn [system_state allow_interruption allow_wake_word audio_queue
       audio_player sd_playing mic is_first_time traceback_bound acts
       allow_listening_to_user negb fst snd].
  destruct ft; cbv beta iota;
    cbn [system_state allow_interruption allow_wake_word audio_queue
         audio_player sd_playing mic is_first_time traceback_bound acts
         allow_listening_to_user negb fst snd];
    (destruct (record_until_silence env self primary_params (tn_fuel x) m)
       as [[buf | e |] m']; cbn; [| no_reply | no_reply]);
    (destruct (nonempty_bytes buf); cbn; [| no_reply]);
    (destruct (tn_wav x) as [wav|]; cbn; [| no_reply]);
    (destruct (nonempty_bytes wav); cbn; [| no_reply]);
    (destruct (tn_stt x) as [user_input|]; cbn; [| no_reply]);
    (destruct (strip_nonempty user_input) eqn:Hu; cbn; [| no_reply]);
    (destruct (tn_is_stop x); cbn;
       [destruct (tn_sd_raises x); cbn; no_reply |]);
    (destruct aw; cbn;
       [destruct (fst (tn_wake x)); cbn; [| no_reply] |]);
    match goal with
    | |- context [nonempty_string ?s] =>
        destruct (nonempty_string s) eqn:Hm; cbn; [| no_reply]
    end;
    intros evs _ _;
    (split; [reflexivity|]);
    (split; [exists user_input; split; [reflexivity | exact Hu] |]);
    intros Hw; first [discriminate Hw | split; first [reflexivity | assumption]].
Qed.

(** X13. A turn reaches the remote AI or speaks only for an utterance
    that was transcribed to something other than blanks, is not a stop
    command and, while the wake word is required, carries the wake word
    followed by a message: in every other case nothing is dispatched and
    nothing is spoken. *)
Theorem reply_needs_wake_word env self x a evs :
  acts (snd (turn env self x a)) = acts a ++ evs ->
  existsb is_reply evs = true ->
  tn_is_stop x = false
  /\ (exists u, tn_stt x = Some u /\ strip_nonempty u = true)
  /\ (allow_wake_word a = true ->
      fst (tn_wake x) = true
      /\ nonempty_string (snd (tn_wake x)) = true).
Proof.
  unfold turn, try_except.
  pose proof (turn_try_reply env self x a) as Ht.
  pose proof (turn_try_continues env self x a) as (_ & evs1 & Ha1 & _).
  destruct (turn_try env self x a) as [[[] | e |] a1]; cbn [snd] in *;
    try (apply Ht).
  unfold bind, traceback_print_exc, get, raise, ret, act, modify. cbn.
  destruct (traceback_bound a1); cbn; [| apply Ht].
  intros Hacts Hex. rewrite Ha1, <- app_assoc in Hacts.
  apply app_inv_head in Hacts. subst evs.
  rewrite existsb_app in Hex. cbn in Hex. rewrite orb_false_r in Hex.
  exact (Ht evs1 Ha1 Hex).
Qed.

Lemma reply_needs_wake_word_witness :
  tn_is_stop answering_turn = false
  /\ (exists u, tn_stt answering_turn = Some u /\ strip_nonempty u = true)
  /\ (allow_wake_word (module_init (world_at 1000)) = true ->
      fst (tn_wake answering_turn) = true
      /\ nonempty_string (snd (tn_wake answering_turn)) = true).
Proof.
  assert (H : exists evs,
             acts (snd (turn early_drop_env config_recorder answering_turn
                          (module_init (world_at 1000))))
             = acts (module_init (world_at 1000)) ++ evs
             /\ existsb is_reply evs = true).
  { eexists. split; [vm_compute; reflexivity | vm_compute; reflexivity]. }
  destruct H as (evs & Hacts & Hex).
  exact (reply_needs_wake_word early_drop_env config_recorder answering_turn
           (module_init (world_at 1000)) evs Hacts Hex).
Defined.

(** *** The barge-in listener and [interrupt] *)

Ltac close_frame :=
  unfold gate;
  cbn [fst snd system_state allow_interruption is_active
       allow_listening_to_user];
  (split; [let H := fresh "Hraise" in
           intros ? H; cbn in H; discriminate H |]);
  repeat split; reflexivity.

Lemma interruption_body_frame env self x a :
  (forall e, fst (interruption_body env self x a) <> Raise e)
  /\ gate (snd (interruption_body env self x a)) = gate a
  /\ allow_interruption (snd (interruption_body env self x a))
     = allow_interruption a
  /\ is_active (system_state (snd (interruption_body env self x a)))
     = is_active (system_state a).
Proof.
  destruct a as [[l ac sp g] ai aw q [cj pq] sd m ft tb ac0].
  unfold interruption_body, record, zoom, try_except, bind, get, ret, raise,
    interrupt, clear_all_queues, try_pass, stop_current, flush_queue,
    sd_stop, resume_listening, act, modify, with_state, with_player,
    with_sd, with_queue, with_mic.
  cbv beta iota;
  cbn [system_state allow_interruption allow_wake_word audio_queue
       audio_player sd_playing mic is_first_time traceback_bound acts
       allow_listening_to_user negb fst snd].
  destruct g; cbv beta iota;
    cbn [system_state allow_interruption allow_wake_word audio_queue
         audio_player sd_playing mic is_first_time traceback_bound acts
         allow_listening_to_user negb fst snd];
    [| close_frame].
  destruct (record_until_silence env self barge_in_params (bi_fuel x) m)
    as [[buf | e |] m']; cbn; [| close_frame | close_frame].
  destruct (nonempty_bytes buf); cbn; [| close_frame].
  destruct (bi_stt x) as [partial|]; cbn; [| close_frame].
  destruct (nonempty_string partial); cbn; [| close_frame].
  destruct (bi_is_stop x partial); cbn; [| close_frame].
  destruct (bi_sd_raises x); cbn; close_frame.
Qed.

(** X14. The barge-in listener never raises, whatever the recorder,
    the transcriber or [sd.stop] do: every failure inside a round is
    caught. It never writes the gate, the configuration or
    [is_active]: only [main_thread] opens and closes the gate, and the
    listener's loop ends only when something else clears
    [is_active]. *)
Theorem listener_never_raises env self rounds a :
  (forall e, fst (interruption_thread env self rounds a) <> Raise e)
  /\ gate (snd (interruption_thread env self rounds a)) = gate a
  /\ allow_interruption (snd (interruption_thread env self rounds a))
     = allow_interruption a
  /\ is_active (system_state (snd (interruption_thread env self rounds a)))
     = is_active (system_state a).
Proof.
  revert a. induction rounds as [|x rest IH]; intros a; simpl.
  - repeat split. intros e H. discriminate H.
  - unfold bind at 1 3 5 7. unfold get.
    destruct (is_active (system_state a)) eqn:Hact;
      [| repeat split; [intros e H; discriminate H | exact Hact]].
    unfold bind.
    destruct (interruption_body_frame env self x a) as (Hr & Hg & Hi & Ha).
    destruct (interruption_body env self x a) as [[[] | e0 |] a1];
      cbn [fst snd] in *.
    + destruct (IH a1) as (Hr' & Hg' & Hi' & Ha').
      repeat split; [exact Hr' | congruence | congruence | congruence].
    + exfalso. exact (Hr e0 eq_refl).
    + repeat split; [intros e H; discriminate H | congruence ..].
Qed.

(** X15. [interrupt] returns normally from every state, also when
    [sd.stop()] raises. Afterwards the audio queue and the player's
    queue are empty, the job the player holds, if any, is marked as
    cancelled, nothing is speaking and the system listens; the gate,
    the configuration, [is_active] and the recorder are untouched. *)
Theorem interrupt_always_succeeds sdr a :
  exists a',
    interrupt sdr a = (Ok tt, a')
    /\ audio_queue a' = []
    /\ player_queue (audio_player a') = []
    /\ (forall j, current_job (audio_player a) = Some j ->
                  current_job (audio_player a')
                  = Some {| job_path := job_path j; job_canceled := true |})
    /\ (current_job (audio_player a) = None ->
        current_job (audio_player a') = None)
    /\ is_speaking (system_state a') = false
    /\ is_listening (system_state a') = true
    /\ is_active (system_state a') = is_active (system_state a)
    /\ gate a' = gate a
    /\ allow_interruption a' = allow_interruption a
    /\ mic a' = mic a
    /\ acts a' = acts a
    /\ sd_playing a' = (if sdr then sd_playing a else false).
Proof.
  assert (Hdrain : forall (A : Type) (q : list A), drain q = []).
  { intros A q. induction q; simpl; auto. }
  destruct a as [[l ac sp g] ai aw q [cj pq] sd m ft tb ac0].
  unfold gate. unfold_app.
  destruct sdr, cj as [j|]; cbn; rewrite !Hdrain; eexists;
    (split; [reflexivity|]); cbn;
    repeat split; try reflexivity;
    first [ intros j' H;
            first [discriminate H | injection H as <-; reflexivity]
          | intros H; first [discriminate H | reflexivity] ].
Qed.

End AssistantMoreFacts.

(** ** Settings and the threads [main] starts *)

Module StartupFacts.

Import Py Eff Recorder Assistant Threads Startup AssistantMoreFacts.
Import String.StringSyntax.

Local Open Scope string_scope.

Lemma in_threads_eye (s : Settings) (m : EyeModule) :
  In (EyeThread m) (threads s)
  <-> has_eye_model s = true /\ eye s = Some m.
Proof.
  unfold threads. rewrite !in_app_iff. split.
  - intros [H | [H | H]].
    + destruct (set_allow_interruption s); simpl in H;
        [destruct H as [H | []]; discriminate H | destruct H].
    + destruct (has_eye_model s); [|destruct H].
      destruct (eye s) as [m'|]; [|destruct H].
      destruct H as [H | []]. injection H as ->. auto.
    + destruct H as [H | []]. discriminate H.
  - intros [-> ->]. right. left. left. reflexivity.
Qed.

(** The module picked for a value of [eye_model]. *)
Lemma initialize_settings_eye args config (m : EyeModule) :
  let s := initialize_settings args config in
  (eye s = Some m <-> set_eye_model s = model_name m)
  /\ has_eye_model s
     = match eye s with Some _ => true | None => false end
  /\ (String.eqb (lower (set_eye_model s)) "none" = true -> eye s = None).
Proof.
  cbv zeta. unfold initialize_settings.
  set (em := str_or (arg_eye_model args) (EYE_MODEL config)).
  destruct (String.eqb (lower em) "none") eqn:Hn;
    [| destruct (String.eqb_spec em "draw") as [E | N1];
       [| destruct (String.eqb_spec em "img") as [E | N2];
          [| destruct (String.eqb_spec em "video") as [E | N3];
             [| destruct (String.eqb_spec em "track") as [E | N4]]]]];
    cbn [set_eye_model has_eye_model eye];
    (split; [| split; [reflexivity | first [intros _; reflexivity | intros H; congruence]]]).
  - split; [intros H; discriminate H|].
    intros H. rewrite H in Hn. destruct m; discriminate Hn.
  - rewrite E. split; [intros H; injection H as <-; reflexivity|].
    destruct m; intros H; first [reflexivity | discriminate H].
  - rewrite E. split; [intros H; injection H as <-; reflexivity|].
    destruct m; intros H; first [reflexivity | discriminate H].
  - rewrite E. split; [intros H; injection H as <-; reflexivity|].
    destruct m; intros H; first [reflexivity | discriminate H].
  - rewrite E. split; [intros H; injection H as <-; reflexivity|].
    destruct m; intros H; first [reflexivity | discriminate H].
  - split; [intros H; discriminate H|].
    intros H. exfalso. destruct m; cbn [model_name] in H; congruence.
Qed.

(** X16. The eye thread is started exactly when the eye model in force
    (the command line's, else the configuration's) is one of "draw",
    "img", "video", "track", written exactly so, and then it runs the
    module of that name; any spelling of "none", and any other value,
    leaves [has_eye_model] false and [eye] unset, and [has_eye_model]
    is true exactly when a module was loaded. *)
Theorem eye_thread_needs_known_model args config m :
  let s := initialize_settings args config in
  (In (EyeThread m) (threads s) <-> set_eye_model s = model_name m)
  /\ (has_eye_model s = true <-> eye s <> None)
  /\ (String.eqb (lower (set_eye_model s)) "none" = true ->
      has_eye_model s = false /\ eye s = None).
Proof.
  intros s.
  destruct (initialize_settings_eye args config m) as (Hm & Hh & Hn).
  fold s in Hm, Hh, Hn.
  split; [|split].
  - rewrite in_threads_eye, <- Hm. rewrite Hh. split.
    + intros [_ H]. exact H.
    + intros H. rewrite H. auto.
  - rewrite Hh. destruct (eye s); split; intros H;
      first [discriminate H | reflexivity | exfalso; apply H; reflexivity
            | idtac].
    discriminate.
  - intros H. specialize (Hn H). rewrite Hh, Hn. auto.
Qed.

Lemma in_threads_interruption (s : Settings) :
  In InterruptionThread (threads s) <-> set_allow_interruption s = true.
Proof.
  unfold threads. rewrite !in_app_iff. split.
  - intros [H | [H | H]].
    + destruct (set_allow_interruption s); [reflexivity | destruct H].
    + destruct (has_eye_model s); [|destruct H].
      destruct (eye s) as [m'|]; [|destruct H].
      destruct H as [H | []]. discriminate H.
    + destruct H as [H | []]. discriminate H.
  - intros ->. left. left. reflexivity.
Qed.

(** X17. [main] starts the barge-in listener exactly when
    [allow_interruption] is set, and always starts [main_thread], last
    and once. With the setting off the gate never opens: whenever
    [main_thread] leaves the gate open, whatever the turns were, the
    listener thread has been started. *)
Theorem gate_opens_only_if_enabled args config :
  let s := initialize_settings args config in
  (In InterruptionThread (threads s) <-> set_allow_interruption s = true)
  /\ (exists pre, threads s = (pre ++ [MainThread])%list
                  /\ ~ In MainThread pre)
  /\ (forall w env self turns,
        gate (snd (main_thread env self turns (configured s w))) = true ->
        In InterruptionThread (threads s)).
Proof.
  intros s. split; [apply in_threads_interruption|]. split.
  - unfold threads. rewrite app_assoc. eexists. split; [reflexivity|].
    rewrite in_app_iff. intros [H | H].
    + destruct (set_allow_interruption s); [|destruct H].
      destruct H as [H | []]. discriminate H.
    + destruct (has_eye_model s); [|destruct H].
      destruct (eye s) as [m'|]; [|destruct H].
      destruct H as [H | []]. discriminate H.
  - intros w env self turns Hg. apply in_threads_interruption.
    destruct (main_thread_keeps env self turns (configured s w))
      as (_ & _ & _ & _ & Hgate).
    destruct (Hgate Hg) as [H | H]; [discriminate H | exact H].
Qed.

End StartupFacts.
